(** * COLMAP bundle-adjustment cost functions

    A shallow embedding of [src/colmap/estimators/cost_functions.h].

    The residual functors of that header are C++ templates over a scalar
    type [T]: the solver instantiates them at [double] to obtain values and
    at a forward-mode dual number to obtain derivatives.  The embedding
    keeps this shape: every functor is a function over an arbitrary type
    [T] carrying the operations of the class [Scalar], and two instances
    are given, the numbers themselves and first-order jets.

    Numbers.  [double] is modelled by the real numbers of the Standard
    Library, that is, by exact arithmetic: rounding, overflow, infinities
    and NaN are outside the model.  Division is the total division of the
    reals, so a statement about a quotient is only meaningful where the
    divisor is shown to be non-zero.

    Collaborators.  Eigen and Ceres are external libraries; the parts the
    header calls (quaternion and small-matrix algebra, [inverse], [llt],
    [QuaternionToAngleAxis], [AutoDiffCostFunction],
    [ConditionedCostFunction]) are modelled by their documented behaviour
    in the sections named after them.  [colmap/geometry/rigid3.h] and
    [colmap/sensor/models.h] belong to the repository but are not among
    the sources at hand; what is needed from them is marked as modelled
    from the specification. *)

From Stdlib Require Import Reals Lra ZArith.
From Stdlib Require Import ClassicalEpsilon FunctionalExtensionality.
From HB Require Import structures.
From mathcomp Require Import ssreflect ssrfun ssrbool eqtype ssrnat seq div.
From mathcomp Require Import choice.
From mathcomp Require Import fintype finfun bigop ssralg matrix mxalgebra.

Set Implicit Arguments.
Unset Strict Implicit.
Unset Printing Implicit Defensive.

Delimit Scope R_scope with Re.

(** ** The numbers: [double] as a field *)

Notation double := R (only parsing).

(** Dense matrices over [double] are MathComp matrices, which asks for the
    field structure of the reals to be declared.  Equality of reals is
    decided classically and the choice operator comes from the epsilon
    operator, as the Standard Library's real numbers are classical. *)

Definition Req_bool (x y : R) : bool := if Req_dec_T x y then true else false.

Fact Req_boolP : Equality.axiom Req_bool.
Proof. by move=> x y; rewrite /Req_bool; case: Req_dec_T => h; constructor. Qed.

HB.instance Definition _ := hasDecEq.Build R Req_boolP.

Section ClassicalChoice.
Variable A : Type.
Variable a0 : A.

Definition pick_some (P : pred A) (n : nat) : option A :=
  if excluded_middle_informative (exists x, P x)
  then Some (epsilon (inhabits a0) (fun x => P x = true)) else None.

Fact pick_some_sound P n x : pick_some P n = Some x -> P x.
Proof.
rewrite /pick_some; case: excluded_middle_informative => // ex [<-].
exact: (epsilon_spec (inhabits a0) (fun x => P x = true) ex).
Qed.

Fact pick_some_complete (P : pred A) :
  (exists x, P x) -> exists n, pick_some P n.
Proof.
by move=> ex; exists 0; rewrite /pick_some; case: excluded_middle_informative.
Qed.

Fact pick_some_ext (P Q : pred A) : P =1 Q -> pick_some P =1 pick_some Q.
Proof. by move=> /functional_extensionality PQ n; rewrite PQ. Qed.

Definition classical_hasChoice : hasChoice A :=
  hasChoice.Build A pick_some_sound pick_some_complete pick_some_ext.

End ClassicalChoice.

HB.instance Definition _ := classical_hasChoice R0.

Fact RplusA : associative Rplus.
Proof. by move=> x y z; rewrite Rplus_assoc. Qed.
Fact Rplus0 : left_id R0 Rplus. Proof. exact: Rplus_0_l. Qed.
Fact RplusN : left_inverse R0 Ropp Rplus. Proof. exact: Rplus_opp_l. Qed.

HB.instance Definition _ :=
  GRing.isZmodule.Build R RplusA Rplus_comm Rplus0 RplusN.

Fact RmultA : associative Rmult.
Proof. by move=> x y z; rewrite Rmult_assoc. Qed.
Fact Rmult1 : left_id R1 Rmult. Proof. exact: Rmult_1_l. Qed.
Fact RmultDl : left_distributive Rmult Rplus.
Proof. by move=> x y z; rewrite Rmult_plus_distr_r. Qed.
Fact R1_neq0 : R1 != R0. Proof. by apply/eqP; exact: R1_neq_R0. Qed.

HB.instance Definition _ :=
  GRing.Zmodule_isComNzRing.Build R RmultA Rmult_comm Rmult1 RmultDl R1_neq0.

(** The inverse of the field structure is total, with [0^-1 = 0]. *)
Definition Rinv0 (x : R) : R := if x == R0 then R0 else Rinv x.

Fact Rinv0_l (x : R) : x != R0 -> Rmult (Rinv0 x) x = R1.
Proof. by move=> nz; rewrite /Rinv0 (negPf nz); apply: Rinv_l; exact/eqP. Qed.
Fact Rinv00 : Rinv0 R0 = R0. Proof. by rewrite /Rinv0 eqxx. Qed.

HB.instance Definition _ := GRing.ComNzRing_isField.Build R Rinv0_l Rinv00.

(** Comparison, as a test: [x < y] of the C++ code. *)
Definition Rltb (x y : R) : bool := if Rlt_dec x y then true else false.

(** [std::atan2] on [double]. *)
Definition Ratan2 (y x : R) : R :=
  if Rltb 0 x then atan (y / x)%Re
  else if Rltb x 0 then
    if Rltb y 0 then (atan (y / x) - PI)%Re else (atan (y / x) + PI)%Re
  else if Rltb 0 y then (PI / 2)%Re
  else if Rltb y 0 then (- (PI / 2))%Re
  else 0%Re.

(** ** The scalar type [T] of the templates *)

(** What the functors ask of [T]: construction from a [double] ([T(x)]),
    the four operations and negation, [sqrt] and [atan2] (used by the
    rotation logarithm), and the comparison [<]. *)
Class Scalar (T : Type) := {
  cast : double -> T;
  add : T -> T -> T;
  sub : T -> T -> T;
  mul : T -> T -> T;
  div : T -> T -> T;
  opp : T -> T;
  sqrt : T -> T;
  atan2 : T -> T -> T;
  lt : T -> T -> bool
}.

Declare Scope scalar_scope.
Delimit Scope scalar_scope with sc.
Notation "x + y" := (add x y) : scalar_scope.
Notation "x - y" := (sub x y) : scalar_scope.
Notation "x * y" := (mul x y) : scalar_scope.
Notation "x / y" := (div x y) : scalar_scope.
Notation "- x" := (opp x) : scalar_scope.

(** [T = double]. *)
#[export] Instance double_Scalar : Scalar double := {
  cast := fun x => x;
  add := Rplus; sub := Rminus; mul := Rmult; div := Rdiv; opp := Ropp;
  sqrt := R_sqrt.sqrt; atan2 := Ratan2; lt := Rltb
}.

(** [T = ceres::Jet<double, N>]: a value and the vector of its partial
    derivatives with respect to the [N] parameters of the cost function
    (ceres/jet.h).  The derivative vector is indexed by the position of the
    parameter. *)
Record Jet := mkJet { a : double; v : nat -> double }.

Definition Jet_div (f g : Jet) : Jet :=
  let g_a_inverse := (1 / a g)%Re in
  let f_a_by_g_a := (a f * g_a_inverse)%Re in
  mkJet f_a_by_g_a (fun k => ((v f k - f_a_by_g_a * v g k) * g_a_inverse)%Re).

Definition Jet_sqrt (f : Jet) : Jet :=
  let tmp := R_sqrt.sqrt (a f) in
  let two_a_inverse := (1 / (2 * tmp))%Re in
  mkJet tmp (fun k => (v f k * two_a_inverse)%Re).

Definition Jet_atan2 (g f : Jet) : Jet :=
  let tmp := (1 / (a f * a f + a g * a g))%Re in
  mkJet (Ratan2 (a g) (a f))
        (fun k => (tmp * (- a g * v f k + a f * v g k))%Re).

#[export] Instance Jet_Scalar : Scalar Jet := {
  cast := fun x => mkJet x (fun _ => 0%Re);
  add := fun f g => mkJet (a f + a g)%Re (fun k => (v f k + v g k)%Re);
  sub := fun f g => mkJet (a f - a g)%Re (fun k => (v f k - v g k)%Re);
  mul := fun f g =>
    mkJet (a f * a g)%Re (fun k => (a f * v g k + v f k * a g)%Re);
  div := Jet_div;
  opp := fun f => mkJet (- a f)%Re (fun k => (- v f k)%Re);
  sqrt := Jet_sqrt;
  atan2 := Jet_atan2;
  lt := fun f g => Rltb (a f) (a g)
}.

(** ** Eigen: fixed-size vectors, quaternions and 3x3 matrices over [T] *)

Section Eigen.
Context {T : Type} {ST : Scalar T}.
Local Open Scope scalar_scope.

(** [Eigen::Matrix<T, 2, 1>] and [Eigen::Matrix<T, 3, 1>]. *)
Record Vector2 := mkVector2 { u0 : T; u1 : T }.
Record Vector3 := mkVector3 { v0 : T; v1 : T; v2 : T }.

(** [Eigen::Quaternion<T>]; its coefficients are stored in the order
    x, y, z, w. *)
Record Quaternion := mkQuaternion { qx : T; qy : T; qz : T; qw : T }.

(** [Eigen::Matrix<T, 3, 3>], by rows. *)
Record Matrix3 := mkMatrix3 { row0 : Vector3; row1 : Vector3; row2 : Vector3 }.

(** A parameter block [const T*] is the sequence of the numbers it points
    to; [p[i]] reads the [i]-th of them. *)
Definition at_ (p : seq T) (i : nat) : T := nth (cast 0%Re) p i.

(** [Eigen::Map<const Matrix<T, 3, 1>>] and
    [Eigen::Map<const Quaternion<T>>] over a block. *)
Definition EigenVector3Map (p : seq T) : Vector3 :=
  mkVector3 (at_ p 0) (at_ p 1) (at_ p 2).

Definition EigenQuaternionMap (p : seq T) : Quaternion :=
  mkQuaternion (at_ p 0) (at_ p 1) (at_ p 2) (at_ p 3).

(** [q.coeffs().data()] and [v.data()]. *)
Definition coeffs (q : Quaternion) : seq T := [:: qx q; qy q; qz q; qw q].
Definition data (x : Vector3) : seq T := [:: v0 x; v1 x; v2 x].

Definition vadd (x y : Vector3) : Vector3 :=
  mkVector3 (v0 x + v0 y) (v1 x + v1 y) (v2 x + v2 y).

Definition vsub (x y : Vector3) : Vector3 :=
  mkVector3 (v0 x - v0 y) (v1 x - v1 y) (v2 x - v2 y).

Definition vopp (x : Vector3) : Vector3 :=
  mkVector3 (- v0 x) (- v1 x) (- v2 x).

(** [s * x] and [x * s]. *)
Definition vscale (s : T) (x : Vector3) : Vector3 :=
  mkVector3 (s * v0 x) (s * v1 x) (s * v2 x).

Definition vscale_r (x : Vector3) (s : T) : Vector3 :=
  mkVector3 (v0 x * s) (v1 x * s) (v2 x * s).

Definition dot (x y : Vector3) : T := v0 x * v0 y + v1 x * v1 y + v2 x * v2 y.

Definition cross (x y : Vector3) : Vector3 :=
  mkVector3 (v1 x * v2 y - v2 x * v1 y)
            (v2 x * v0 y - v0 x * v2 y)
            (v0 x * v1 y - v1 x * v0 y).

(** [q.vec()], [q.conjugate()], [q.squaredNorm()]. *)
Definition vec (q : Quaternion) : Vector3 := mkVector3 (qx q) (qy q) (qz q).

Definition conjugate (q : Quaternion) : Quaternion :=
  mkQuaternion (- qx q) (- qy q) (- qz q) (qw q).

Definition squaredNorm (q : Quaternion) : T :=
  qx q * qx q + qy q * qy q + qz q * qz q + qw q * qw q.

(** [q.inverse()]: the conjugate divided by the squared norm, and the zero
    quaternion when the squared norm is not positive. *)
Definition qinverse (q : Quaternion) : Quaternion :=
  let n2 := squaredNorm q in
  if lt (cast 0%Re) n2 then
    let c := conjugate q in
    mkQuaternion (qx c / n2) (qy c / n2) (qz c / n2) (qw c / n2)
  else mkQuaternion (cast 0%Re) (cast 0%Re) (cast 0%Re) (cast 0%Re).

(** [a * b] on quaternions. *)
Definition qmul (a b : Quaternion) : Quaternion :=
  mkQuaternion
    (qw a * qx b + qx a * qw b + qy a * qz b - qz a * qy b)
    (qw a * qy b + qy a * qw b + qz a * qx b - qx a * qz b)
    (qw a * qz b + qz a * qw b + qx a * qy b - qy a * qx b)
    (qw a * qw b - qx a * qx b - qy a * qy b - qz a * qz b).

(** [q * x]: the rotation of a vector, as [_transformVector] computes it. *)
Definition transformVector (q : Quaternion) (x : Vector3) : Vector3 :=
  let uv := cross (vec q) x in
  let uv := vadd uv uv in
  vadd (vadd x (vscale (qw q) uv)) (cross (vec q) uv).

(** [q.toRotationMatrix()]. *)
Definition toRotationMatrix (q : Quaternion) : Matrix3 :=
  let tx := cast 2%Re * qx q in
  let ty := cast 2%Re * qy q in
  let tz := cast 2%Re * qz q in
  let twx := tx * qw q in
  let twy := ty * qw q in
  let twz := tz * qw q in
  let txx := tx * qx q in
  let txy := ty * qx q in
  let txz := tz * qx q in
  let tyy := ty * qy q in
  let tyz := tz * qy q in
  let tzz := tz * qz q in
  mkMatrix3
    (mkVector3 (cast 1%Re - (tyy + tzz)) (txy - twz) (txz + twy))
    (mkVector3 (txy + twz) (cast 1%Re - (txx + tzz)) (tyz - twx))
    (mkVector3 (txz - twy) (tyz + twx) (cast 1%Re - (txx + tyy))).

(** Columns, transpose and products of 3x3 matrices. *)
Definition col0 (M : Matrix3) : Vector3 :=
  mkVector3 (v0 (row0 M)) (v0 (row1 M)) (v0 (row2 M)).
Definition col1 (M : Matrix3) : Vector3 :=
  mkVector3 (v1 (row0 M)) (v1 (row1 M)) (v1 (row2 M)).
Definition col2 (M : Matrix3) : Vector3 :=
  mkVector3 (v2 (row0 M)) (v2 (row1 M)) (v2 (row2 M)).

Definition transpose3 (M : Matrix3) : Matrix3 :=
  mkMatrix3 (col0 M) (col1 M) (col2 M).

Definition mulmv (M : Matrix3) (x : Vector3) : Vector3 :=
  mkVector3 (dot (row0 M) x) (dot (row1 M) x) (dot (row2 M) x).

Definition mulmm (M N : Matrix3) : Matrix3 :=
  let r (m : Vector3) :=
    mkVector3 (dot m (col0 N)) (dot m (col1 N)) (dot m (col2 N)) in
  mkMatrix3 (r (row0 M)) (r (row1 M)) (r (row2 M)).

End Eigen.

Arguments Vector2 T : clear implicits.
Arguments Vector3 T : clear implicits.
Arguments Quaternion T : clear implicits.
Arguments Matrix3 T : clear implicits.

(** [x.cast<T>()] on vectors and quaternions of [double]. *)
Definition vcast {T} {ST : Scalar T} (x : Vector3 double) : Vector3 T :=
  mkVector3 (cast (v0 x)) (cast (v1 x)) (cast (v2 x)).

Definition qcast {T} {ST : Scalar T} (q : Quaternion double) : Quaternion T :=
  mkQuaternion (cast (qx q)) (cast (qy q)) (cast (qz q)) (cast (qw q)).

(** ** Ceres *)

Section CeresRotation.
Context {T : Type} {ST : Scalar T}.
Local Open Scope scalar_scope.

(** [ceres::QuaternionToAngleAxis] (ceres/rotation.h): the logarithm of a
    rotation, from a quaternion in the order w, x, y, z.  Quaternions with
    a zero vector part take the second branch. *)
Definition QuaternionToAngleAxis (quaternion : seq T) : seq T :=
  let q1 := at_ quaternion 1 in
  let q2 := at_ quaternion 2 in
  let q3 := at_ quaternion 3 in
  let sin_squared_theta := q1 * q1 + q2 * q2 + q3 * q3 in
  if lt (cast 0%Re) sin_squared_theta then
    let sin_theta := sqrt sin_squared_theta in
    let cos_theta := at_ quaternion 0 in
    let two_theta :=
      cast 2%Re * (if lt cos_theta (cast 0%Re)
                   then atan2 (- sin_theta) (- cos_theta)
                   else atan2 sin_theta cos_theta) in
    let k := two_theta / sin_theta in
    [:: q1 * k; q2 * k; q3 * k]
  else
    let k := cast 2%Re in
    [:: q1 * k; q2 * k; q3 * k].

End CeresRotation.

(** [ceres::CostFunction]: the handle given to the solver.  [Evaluate]
    receives the parameter blocks and reports a success flag, the
    residuals, and for each parameter block its Jacobian in row-major order
    (row: residual, column: parameter of the block).  The model always
    produces the Jacobians; the C++ caller may ask for none or some. *)
Record EvaluateResult := mkEvaluateResult {
  success : bool;
  residuals : seq double;
  jacobians : seq (seq double)
}.

Record CostFunction := mkCostFunction {
  num_residuals : nat;
  parameter_block_sizes : seq nat;
  Evaluate : seq (seq double) -> EvaluateResult
}.

(** A functor as [ceres::AutoDiffCostFunction] calls it: on the list of its
    parameter blocks, at any scalar type. *)
Definition CostFunctorCall : Type :=
  forall T : Type, Scalar T -> seq (seq T) -> bool * seq T.

(** The parameters as jets: parameter [j] of a block that starts at
    position [offset] carries the unit derivative vector of index
    [offset + j]. *)
Fixpoint jets_of (offset : nat) (dims : seq nat) (parameters : seq (seq double))
    : seq (seq Jet) :=
  match dims with
  | [::] => [::]
  | n :: dims' =>
      mkseq (fun j => mkJet (nth 0%Re (head [::] parameters) j)
                            (fun k => if k == offset + j then 1%Re else 0%Re)) n
      :: jets_of (offset + n) dims' (behead parameters)
  end.

(** The Jacobians read off the derivative vectors of the output jets. *)
Fixpoint jacobians_of (kNumResiduals offset : nat) (dims : seq nat)
    (output : seq Jet) : seq (seq double) :=
  match dims with
  | [::] => [::]
  | n :: dims' =>
      mkseq (fun idx =>
               v (nth (cast 0%Re) output (idx %/ n)) (offset + idx %% n))
            (kNumResiduals * n)
      :: jacobians_of kNumResiduals (offset + n) dims' output
  end.

(** [ceres::AutoDiffCostFunction<Functor, kNumResiduals, kParameterDims...>]:
    values from the functor at [double], derivatives from the functor at
    jets. *)
Definition AutoDiffCostFunction (functor : CostFunctorCall)
    (kNumResiduals : nat) (kParameterDims : seq nat) : CostFunction :=
  {| num_residuals := kNumResiduals;
     parameter_block_sizes := kParameterDims;
     Evaluate := fun parameters =>
       let value := functor double double_Scalar parameters in
       let output :=
         functor Jet Jet_Scalar (jets_of 0 kParameterDims parameters) in
       {| success := value.1;
          residuals := value.2;
          jacobians := jacobians_of kNumResiduals 0 kParameterDims output.2 |}
  |}.

(** [jacobian_row *= d], where [jacobian_row] is the segment of
    [block_size] entries that starts at [r * block_size] in a row-major
    Jacobian: row [r]. *)
Definition scale_row (d : double) (r block_size : nat) (J : seq double)
    : seq double :=
  take (r * block_size) J
  ++ [seq (x * d)%Re | x <- take block_size (drop (r * block_size) J)]
  ++ drop (r * block_size + block_size) J.

(** One iteration of the loop of [ConditionedCostFunction::Evaluate], for
    residual [r]: the conditioner is evaluated at the unconditioned
    residual, its value replaces the residual and its derivative scales row
    [r] of every Jacobian. *)
Definition condition_residual (block_sizes : seq nat)
    (conditioners : seq (option CostFunction))
    (st : EvaluateResult) (r : nat) : EvaluateResult :=
  if ~~ success st then st else
  match nth None conditioners r with
  | None => st
  | Some conditioner =>
      let unconditioned_residual := nth 0%Re (residuals st) r in
      let c := Evaluate conditioner [:: [:: unconditioned_residual]] in
      if ~~ success c then
        mkEvaluateResult false (residuals st) (jacobians st)
      else
        let conditioner_derivative := nth 0%Re (nth [::] (jacobians c) 0) 0 in
        mkEvaluateResult true
          (set_nth 0%Re (residuals st) r (nth 0%Re (residuals c) 0))
          (mkseq (fun i => scale_row conditioner_derivative r
                             (nth 0 block_sizes i) (nth [::] (jacobians st) i))
                 (size block_sizes))
  end.

(** [ceres::ConditionedCostFunction] (ceres/conditioned_cost_function.cc). *)
Definition ConditionedCostFunction (wrapped_cost_function : CostFunction)
    (conditioners : seq (option CostFunction)) : CostFunction :=
  {| num_residuals := num_residuals wrapped_cost_function;
     parameter_block_sizes := parameter_block_sizes wrapped_cost_function;
     Evaluate := fun parameters =>
       foldl (condition_residual (parameter_block_sizes wrapped_cost_function)
                                 conditioners)
             (Evaluate wrapped_cost_function parameters)
             (iota 0 (num_residuals wrapped_cost_function))
  |}.

(** ** COLMAP collaborators *)

(** Modelled from the spec: [Rigid3d] of [colmap/geometry/rigid3.h], a
    rotation (unit quaternion, not enforced) and a translation that map
    frame A to frame B. *)
Record Rigid3d := mkRigid3d {
  rotation : Quaternion double;
  translation : Vector3 double
}.

(** Modelled from the spec: [Inverse] of [colmap/geometry/rigid3.h].  "Inverse
    flips direction and negates/rotates translation accordingly": the
    rotation is inverted and the translation is the inverse rotation of the
    negated translation. *)
Definition Inverse (b_from_a : Rigid3d) : Rigid3d :=
  let a_from_b_rotation := qinverse (rotation b_from_a) in
  mkRigid3d a_from_b_rotation
            (transformVector a_from_b_rotation (vopp (translation b_from_a))).

(** Modelled from the spec: composition of [colmap/geometry/rigid3.h],
    [c_from_a = c_from_b * b_from_a], by the group law of rigid
    transforms. *)
Definition Rigid3d_mul (c_from_b b_from_a : Rigid3d) : Rigid3d :=
  mkRigid3d (qmul (rotation c_from_b) (rotation b_from_a))
            (vadd (translation c_from_b)
                  (transformVector (rotation c_from_b) (translation b_from_a))).

(** Modelled from the spec: [CameraModelId] of [colmap/sensor/models.h],
    the closed enumerated tag of the camera models, with integer values. *)
Notation CameraModelId := Z (only parsing).

(** Modelled from the spec: a camera model class of
    [colmap/sensor/models.h], with what the header uses of it: its
    identifier [model_id], its number of parameters [num_params] and its
    projection [ImgFromCam(params, u, v, w, &x, &y)] from a point in the
    camera frame to the image, a template over the scalar type. *)
Record CameraModel := mkCameraModel {
  model_id : CameraModelId;
  num_params : nat;
  ImgFromCam : forall T : Type, Scalar T -> seq T -> T -> T -> T -> T * T
}.

(** Modelled from the spec: the pinhole model with one focal length and a
    principal point, parameters [f, cx, cy]; the image point of [(u, v, w)]
    is [(f u / w + cx, f v / w + cy)]. *)
Definition SimplePinholeCameraModel : CameraModel :=
  {| model_id := 0%Z;
     num_params := 3;
     ImgFromCam := fun T ST params u v w =>
       let f := at_ params 0 in
       let c1 := at_ params 1 in
       let c2 := at_ params 2 in
       ((f * u / w + c1)%sc, (f * v / w + c2)%sc) |}.

(** Modelled from the spec: the pinhole model with two focal lengths,
    parameters [fx, fy, cx, cy]. *)
Definition PinholeCameraModel : CameraModel :=
  {| model_id := 1%Z;
     num_params := 4;
     ImgFromCam := fun T ST params u v w =>
       let f1 := at_ params 0 in
       let f2 := at_ params 1 in
       let c1 := at_ params 2 in
       let c2 := at_ params 3 in
       ((f1 * u / w + c1)%sc, (f2 * v / w + c2)%sc) |}.

(** The outcome of a call that may end in a fatal error instead of
    returning. *)
Inductive outcome (A : Type) : Type :=
  | Returns (x : A)
  | Fatal.
Arguments Fatal {A}.

(** Modelled from the spec: the macro [THROW_CHECK_GT] of
    [colmap/util/logging.h].  The check [x > y] is enforced: the call goes
    on when it holds and fails fast (fatal) when it does not. *)
Definition THROW_CHECK_GT {A : Type} (x y : double) (continuation : outcome A)
    : outcome A :=
  if Rltb y x then continuation else Fatal.

(** ** Dense matrices of [double] *)

Section DenseMatrices.
Local Open Scope ring_scope.

(** [Eigen::Matrix3d] and [Eigen::Matrix6d] are the square matrices
    ['M[double]_3] and ['M[double]_6]; [A.inverse()] is [invmx A], the
    inverse of an invertible matrix.

    [A.llt().matrixL()]: the lower-triangular factor of the Cholesky
    factorisation, one column at a time.  The first column is the first
    column of [A] divided by the square root of the corner entry; the rest
    is the factor of what remains of the lower-right block.  On a matrix
    that is not positive definite Eigen stops and records a numerical
    issue; the properties below are about positive-definite matrices, for
    which the factor is unique ([llt_unique]). *)
Fixpoint llt_matrixL (n : nat) : 'M[double]_n -> 'M[double]_n :=
  match n with
  | 0 => fun A => A
  | n'.+1 => fun A : 'M_(1 + n') =>
      let x := R_sqrt.sqrt (A 0 0) in
      let A21 := x^-1 *: dlsubmx A in
      block_mx (x%:M : 'M_1) 0 A21
               (llt_matrixL (drsubmx A - A21 *m A21^T))
  end.

(** cost_functions.h, [SqrtInformation]:
    [covariance.inverse().llt().matrixL().transpose()]. *)
Definition SqrtInformation (n : nat) (covariance : 'M[double]_n)
    : 'M[double]_n :=
  (llt_matrixL (invmx covariance))^T.

End DenseMatrices.

(** [residuals.applyOnTheLeft(M.cast<T>())]: the residual vector is
    replaced by the product of the matrix with it. *)
Definition applyOnTheLeft {T : Type} {ST : Scalar T} (n : nat)
    (M : 'M[double]_n) (residuals : seq T) : seq T :=
  [seq \big[add/cast 0%Re]_(j < n) (cast (M i j) * at_ residuals j)%sc
  | i <- enum 'I_n].

(** ** The residual functors of cost_functions.h *)

(** [EigenQuaternionToAngleAxis]: the coefficients x, y, z, w are reordered
    to w, x, y, z for Ceres. *)
Definition EigenQuaternionToAngleAxis {T : Type} {ST : Scalar T}
    (eigen_quaternion : seq T) : seq T :=
  let quaternion := [:: at_ eigen_quaternion 3; at_ eigen_quaternion 0;
                        at_ eigen_quaternion 1; at_ eigen_quaternion 2] in
  QuaternionToAngleAxis quaternion.

(** Standard bundle adjustment cost function for variable camera pose,
    calibration, and point parameters. *)
Module ReprojErrorCostFunctor.

Record t := mk { observed_x_ : double; observed_y_ : double }.

Definition make (point2D : Vector2 double) : t := mk (u0 point2D) (u1 point2D).

Definition call {T : Type} {ST : Scalar T} (CM : CameraModel) (self : t)
    (cam_from_world_rotation cam_from_world_translation point3D
       camera_params : seq T) : bool * seq T :=
  let point3D_in_cam :=
    vadd (transformVector (EigenQuaternionMap cam_from_world_rotation)
                          (EigenVector3Map point3D))
         (EigenVector3Map cam_from_world_translation) in
  let xy := ImgFromCam CM ST camera_params
              (v0 point3D_in_cam) (v1 point3D_in_cam) (v2 point3D_in_cam) in
  (true, [:: (xy.1 - cast (observed_x_ self))%sc;
             (xy.2 - cast (observed_y_ self))%sc]).

Definition Create (CM : CameraModel) (point2D : Vector2 double)
    : CostFunction :=
  AutoDiffCostFunction
    (fun T ST p => call CM (make point2D)
                     (nth [::] p 0) (nth [::] p 1) (nth [::] p 2)
                     (nth [::] p 3))
    2 [:: 4; 3; 3; num_params CM].

End ReprojErrorCostFunctor.

(** Bundle adjustment cost function for variable camera calibration and
    point parameters, and fixed camera pose. *)
Module ReprojErrorConstantPoseCostFunctor.

Record t := mk {
  cam_from_world_ : Rigid3d;
  reproj_cost_ : ReprojErrorCostFunctor.t
}.

Definition make (cam_from_world : Rigid3d) (point2D : Vector2 double) : t :=
  mk cam_from_world (ReprojErrorCostFunctor.make point2D).

Definition call {T : Type} {ST : Scalar T} (CM : CameraModel) (self : t)
    (point3D camera_params : seq T) : bool * seq T :=
  let cam_from_world_rotation : Quaternion T :=
    qcast (rotation (cam_from_world_ self)) in
  let cam_from_world_translation : Vector3 T :=
    vcast (translation (cam_from_world_ self)) in
  ReprojErrorCostFunctor.call CM (reproj_cost_ self)
    (coeffs cam_from_world_rotation) (data cam_from_world_translation)
    point3D camera_params.

Definition Create (CM : CameraModel) (cam_from_world : Rigid3d)
    (point2D : Vector2 double) : CostFunction :=
  AutoDiffCostFunction
    (fun T ST p => call CM (make cam_from_world point2D)
                     (nth [::] p 0) (nth [::] p 1))
    2 [:: 3; num_params CM].

End ReprojErrorConstantPoseCostFunctor.

(** Bundle adjustment cost function for variable camera pose and
    calibration parameters, and fixed point. *)
Module ReprojErrorConstantPoint3DCostFunctor.

Record t := mk {
  point3D_ : Vector3 double;
  reproj_cost_ : ReprojErrorCostFunctor.t
}.

Definition make (point2D : Vector2 double) (point3D : Vector3 double) : t :=
  mk point3D (ReprojErrorCostFunctor.make point2D).

Definition call {T : Type} {ST : Scalar T} (CM : CameraModel) (self : t)
    (cam_from_world_rotation cam_from_world_translation
       camera_params : seq T) : bool * seq T :=
  let point3D : Vector3 T := vcast (point3D_ self) in
  ReprojErrorCostFunctor.call CM (reproj_cost_ self)
    cam_from_world_rotation cam_from_world_translation
    (data point3D) camera_params.

Definition Create (CM : CameraModel) (point2D : Vector2 double)
    (point3D : Vector3 double) : CostFunction :=
  AutoDiffCostFunction
    (fun T ST p => call CM (make point2D point3D)
                     (nth [::] p 0) (nth [::] p 1) (nth [::] p 2))
    2 [:: 4; 3; num_params CM].

End ReprojErrorConstantPoint3DCostFunctor.

(** Rig bundle adjustment cost function for variable camera pose and
    calibration and point parameters: the point is first taken into the
    frame of the rig and then into the frame of the camera within the
    rig. *)
Module RigReprojErrorCostFunctor.

Record t := mk { observed_x_ : double; observed_y_ : double }.

Definition make (point2D : Vector2 double) : t := mk (u0 point2D) (u1 point2D).

Definition call {T : Type} {ST : Scalar T} (CM : CameraModel) (self : t)
    (cam_from_rig_rotation cam_from_rig_translation
       rig_from_world_rotation rig_from_world_translation
       point3D camera_params : seq T) : bool * seq T :=
  let point3D_in_cam :=
    vadd (transformVector (EigenQuaternionMap cam_from_rig_rotation)
            (vadd (transformVector (EigenQuaternionMap rig_from_world_rotation)
                                   (EigenVector3Map point3D))
                  (EigenVector3Map rig_from_world_translation)))
         (EigenVector3Map cam_from_rig_translation) in
  let xy := ImgFromCam CM ST camera_params
              (v0 point3D_in_cam) (v1 point3D_in_cam) (v2 point3D_in_cam) in
  (true, [:: (xy.1 - cast (observed_x_ self))%sc;
             (xy.2 - cast (observed_y_ self))%sc]).

Definition Create (CM : CameraModel) (point2D : Vector2 double)
    : CostFunction :=
  AutoDiffCostFunction
    (fun T ST p => call CM (make point2D)
                     (nth [::] p 0) (nth [::] p 1) (nth [::] p 2)
                     (nth [::] p 3) (nth [::] p 4) (nth [::] p 5))
    2 [:: 4; 3; 4; 3; 3; num_params CM].

End RigReprojErrorCostFunctor.

(** Rig bundle adjustment cost function for variable camera pose and camera
    calibration and point parameters but fixed rig extrinsic poses. *)
Module RigReprojErrorConstantRigCostFunctor.

Record t := mk {
  cam_from_rig_ : Rigid3d;
  reproj_cost_ : RigReprojErrorCostFunctor.t
}.

Definition make (cam_from_rig : Rigid3d) (point2D : Vector2 double) : t :=
  mk cam_from_rig (RigReprojErrorCostFunctor.make point2D).

Definition call {T : Type} {ST : Scalar T} (CM : CameraModel) (self : t)
    (rig_from_world_rotation rig_from_world_translation
       point3D camera_params : seq T) : bool * seq T :=
  let cam_from_rig_rotation : Quaternion T :=
    qcast (rotation (cam_from_rig_ self)) in
  let cam_from_rig_translation : Vector3 T :=
    vcast (translation (cam_from_rig_ self)) in
  RigReprojErrorCostFunctor.call CM (reproj_cost_ self)
    (coeffs cam_from_rig_rotation) (data cam_from_rig_translation)
    rig_from_world_rotation rig_from_world_translation
    point3D camera_params.

Definition Create (CM : CameraModel) (cam_from_rig : Rigid3d)
    (point2D : Vector2 double) : CostFunction :=
  AutoDiffCostFunction
    (fun T ST p => call CM (make cam_from_rig point2D)
                     (nth [::] p 0) (nth [::] p 1) (nth [::] p 2)
                     (nth [::] p 3))
    2 [:: 4; 3; 3; num_params CM].

End RigReprojErrorConstantRigCostFunctor.

(** Cost function for refining two-view geometry based on the
    Sampson-Error.  The first pose is at the origin with no rotation; the
    second is given by a rotation and a translation. *)
Module SampsonErrorCostFunctor.

Record t := mk { x1_ : double; y1_ : double; x2_ : double; y2_ : double }.

Definition make (x1 x2 : Vector2 double) : t :=
  mk (u0 x1) (u1 x1) (u0 x2) (u1 x2).

Definition call {T : Type} {ST : Scalar T} (self : t)
    (cam2_from_cam1_rotation cam2_from_cam1_translation : seq T)
    : bool * seq T :=
  let R := toRotationMatrix (EigenQuaternionMap cam2_from_cam1_rotation) in
  (* Matrix representation of the cross product t x R. *)
  let t_x :=
    mkMatrix3
      (mkVector3 (cast 0%Re) (- at_ cam2_from_cam1_translation 2)%sc
                 (at_ cam2_from_cam1_translation 1))
      (mkVector3 (at_ cam2_from_cam1_translation 2) (cast 0%Re)
                 (- at_ cam2_from_cam1_translation 0)%sc)
      (mkVector3 (- at_ cam2_from_cam1_translation 1)%sc
                 (at_ cam2_from_cam1_translation 0) (cast 0%Re)) in
  (* Essential matrix. *)
  let E := mulmm t_x R in
  (* Homogeneous image coordinates. *)
  let x1_h := mkVector3 (cast (x1_ self)) (cast (y1_ self)) (cast 1%Re) in
  let x2_h := mkVector3 (cast (x2_ self)) (cast (y2_ self)) (cast 1%Re) in
  (* Squared sampson error. *)
  let Ex1 := mulmv E x1_h in
  let Etx2 := mulmv (transpose3 E) x2_h in
  let x2tEx1 := dot x2_h Ex1 in
  (true,
   [:: (x2tEx1 * x2tEx1 /
        (v0 Ex1 * v0 Ex1 + v1 Ex1 * v1 Ex1 + v0 Etx2 * v0 Etx2 +
         v1 Etx2 * v1 Etx2))%sc]).

Definition Create (x1 x2 : Vector2 double) : CostFunction :=
  AutoDiffCostFunction
    (fun T ST p => call (make x1 x2) (nth [::] p 0) (nth [::] p 1))
    1 [:: 4; 3].

End SampsonErrorCostFunctor.

(** 6-DoF error on the absolute camera pose: the logarithm of the error
    pose, with SE(3) split into SO(3) x R^3.  The first three components
    are the rotation error and the last three the translation error. *)
Module AbsolutePosePriorCostFunctor.

Record t := mk {
  world_from_cam_prior_ : Rigid3d;
  cam_sqrt_info_from_world_prior_ : 'M[double]_6
}.

Definition make (cam_from_world_prior : Rigid3d)
    (cam_cov_from_world_prior : 'M[double]_6) : t :=
  mk (Inverse cam_from_world_prior) (SqrtInformation cam_cov_from_world_prior).

Definition call {T : Type} {ST : Scalar T} (self : t)
    (cam_from_world_rotation cam_from_world_translation : seq T)
    : bool * seq T :=
  let param_from_prior_rotation :=
    qmul (EigenQuaternionMap cam_from_world_rotation)
         (qcast (rotation (world_from_cam_prior_ self))) in
  let residuals_0_3 :=
    EigenQuaternionToAngleAxis (coeffs param_from_prior_rotation) in
  let param_from_prior_translation :=
    vadd (EigenVector3Map cam_from_world_translation)
         (transformVector (EigenQuaternionMap cam_from_world_rotation)
                          (vcast (translation (world_from_cam_prior_ self)))) in
  (true,
   applyOnTheLeft (cam_sqrt_info_from_world_prior_ self)
     (residuals_0_3 ++ data param_from_prior_translation)).

Definition Create (cam_from_world_prior : Rigid3d)
    (cam_cov_from_world_prior : 'M[double]_6) : CostFunction :=
  AutoDiffCostFunction
    (fun T ST p => call (make cam_from_world_prior cam_cov_from_world_prior)
                     (nth [::] p 0) (nth [::] p 1))
    6 [:: 4; 3].

End AbsolutePosePriorCostFunctor.

(** 3-DoF error on the camera position in the world coordinate frame. *)
Module AbsolutePosePositionPriorCostFunctor.

Record t := mk {
  position_in_world_prior_ : Vector3 double;
  position_sqrt_info_in_world_prior_ : 'M[double]_3
}.

Definition make (position_in_world_prior : Vector3 double)
    (position_cov_in_world_prior : 'M[double]_3) : t :=
  mk position_in_world_prior (SqrtInformation position_cov_in_world_prior).

Definition call {T : Type} {ST : Scalar T} (self : t)
    (cam_from_world_rotation cam_from_world_translation : seq T)
    : bool * seq T :=
  let residuals :=
    vadd (vcast (position_in_world_prior_ self))
         (transformVector
            (qinverse (EigenQuaternionMap cam_from_world_rotation))
            (EigenVector3Map cam_from_world_translation)) in
  (true,
   applyOnTheLeft (position_sqrt_info_in_world_prior_ self) (data residuals)).

Definition Create (position_in_world_prior : Vector3 double)
    (position_cov_in_world_prior : 'M[double]_3) : CostFunction :=
  AutoDiffCostFunction
    (fun T ST p =>
       call (make position_in_world_prior position_cov_in_world_prior)
            (nth [::] p 0) (nth [::] p 1))
    3 [:: 4; 3].

End AbsolutePosePositionPriorCostFunctor.

(** 6-DoF error between two absolute camera poses based on a prior on their
    relative pose.
    Rotation term: log(i_R_w . j_R_w^-1 . j_R_i).
    Translation term: i_t_w + i_R_w . j_R_w^-1 . (j_t_i - j_t_w). *)
Module RelativePosePriorCostFunctor.

Record t := mk {
  j_from_i_prior_ : Rigid3d;
  i_sqrt_info_from_j_prior_ : 'M[double]_6
}.

Definition make (i_from_j_prior : Rigid3d) (i_cov_from_j_prior : 'M[double]_6)
    : t :=
  mk (Inverse i_from_j_prior) (SqrtInformation i_cov_from_j_prior).

Definition call {T : Type} {ST : Scalar T} (self : t)
    (i_from_world_rotation i_from_world_translation
       j_from_world_rotation j_from_world_translation : seq T)
    : bool * seq T :=
  let i_from_j_rotation :=
    qmul (EigenQuaternionMap i_from_world_rotation)
         (qinverse (EigenQuaternionMap j_from_world_rotation)) in
  let param_from_prior_rotation :=
    qmul i_from_j_rotation (qcast (rotation (j_from_i_prior_ self))) in
  let residuals_0_3 :=
    EigenQuaternionToAngleAxis (coeffs param_from_prior_rotation) in
  let j_from_i_prior_translation :=
    vsub (vcast (translation (j_from_i_prior_ self)))
         (EigenVector3Map j_from_world_translation) in
  let param_from_prior_translation :=
    vadd (EigenVector3Map i_from_world_translation)
         (transformVector i_from_j_rotation j_from_i_prior_translation) in
  (true,
   applyOnTheLeft (i_sqrt_info_from_j_prior_ self)
     (residuals_0_3 ++ data param_from_prior_translation)).

Definition Create (i_from_j_prior : Rigid3d)
    (i_cov_from_j_prior : 'M[double]_6) : CostFunction :=
  AutoDiffCostFunction
    (fun T ST p => call (make i_from_j_prior i_cov_from_j_prior)
                     (nth [::] p 0) (nth [::] p 1) (nth [::] p 2)
                     (nth [::] p 3))
    6 [:: 4; 3; 4; 3].

End RelativePosePriorCostFunctor.

(** Cost function for aligning one 3D point with a reference 3D point with
    covariance. *)
Module Point3DAlignmentCostFunctor.

Record t := mk {
  point_in_b_prior_ : Vector3 double;
  point_sqrt_info_in_b_prior_ : 'M[double]_3
}.

Definition make (point_in_b_prior : Vector3 double)
    (point_cov_in_b_prior : 'M[double]_3) : t :=
  mk point_in_b_prior (SqrtInformation point_cov_in_b_prior).

Definition call {T : Type} {ST : Scalar T} (self : t)
    (point_in_a b_from_a_rotation b_from_a_translation b_from_a_scale : seq T)
    : bool * seq T :=
  let point_in_b :=
    vadd (vscale_r (transformVector (EigenQuaternionMap b_from_a_rotation)
                                    (EigenVector3Map point_in_a))
                   (at_ b_from_a_scale 0))
         (EigenVector3Map b_from_a_translation) in
  let residuals := vsub point_in_b (vcast (point_in_b_prior_ self)) in
  (true, applyOnTheLeft (point_sqrt_info_in_b_prior_ self) (data residuals)).

Definition Create (point_in_b_prior : Vector3 double)
    (point_cov_in_b_prior : 'M[double]_3) : CostFunction :=
  AutoDiffCostFunction
    (fun T ST p => call (make point_in_b_prior point_cov_in_b_prior)
                     (nth [::] p 0) (nth [::] p 1) (nth [::] p 2)
                     (nth [::] p 3))
    3 [:: 3; 4; 3; 1].

End Point3DAlignmentCostFunctor.

(** A cost function that wraps another one and whitens its residuals with
    an isotropic covariance. *)
Module IsotropicNoiseCostFunctorWrapper.

Definition LinearCostFunction (s_ : double) : CostFunction :=
  {| num_residuals := 1;
     parameter_block_sizes := [:: 1];
     Evaluate := fun parameters =>
       {| success := true;
          residuals := [:: (nth 0%Re (nth [::] parameters 0) 0 * s_)%Re];
          jacobians := [:: [:: s_]] |}
  |}.

(** [Create(stddev, args...)] for the functor class whose [Create] is
    [CostFunctor_Create].  One conditioner per residual, all with the same
    scale. *)
Definition Create {Args : Type} (CostFunctor_Create : Args -> CostFunction)
    (stddev : double) (args : Args) : outcome CostFunction :=
  THROW_CHECK_GT stddev 0%Re
    (let cost_function := CostFunctor_Create args in
     let scale := (1 / stddev)%Re in
     let conditioners :=
       nseq (num_residuals cost_function) (Some (LinearCostFunction scale)) in
     Returns (ConditionedCostFunction cost_function conditioners)).

End IsotropicNoiseCostFunctorWrapper.

(** The dispatch on the camera model. *)
Section CameraModelDispatch.

(** The camera models of the macro [CAMERA_MODEL_CASES] of
    [colmap/sensor/models.h], a closed list that is a parameter here. *)
Variable CAMERA_MODEL_CASES : seq CameraModel.

(** Modelled from the spec: the [switch] over the macro
    [CAMERA_MODEL_SWITCH_CASES] of [colmap/sensor/models.h], which expands
    [CAMERA_MODEL_CASE] once per camera model of the closed list.  The
    first case whose label is the identifier runs; an identifier that
    matches no case is a fatal error, not a recoverable condition. *)
Fixpoint camera_model_switch {A : Type} (cases : seq CameraModel)
    (camera_model_id : CameraModelId) (body : CameraModel -> A) : outcome A :=
  match cases with
  | [::] => Fatal
  | CM :: cases' =>
      if Z.eqb camera_model_id (model_id CM) then Returns (body CM)
      else camera_model_switch cases' camera_model_id body
  end.

Definition CreateCameraCostFunction {Args : Type}
    (CostFunctor_Create : CameraModel -> Args -> CostFunction)
    (camera_model_id : CameraModelId) (args : Args) : outcome CostFunction :=
  camera_model_switch CAMERA_MODEL_CASES camera_model_id
    (fun CM => CostFunctor_Create CM args).

End CameraModelDispatch.

(** ** The vocabulary of the properties *)

Section Vocabulary.
Local Open Scope ring_scope.

(** Covariances: symmetric positive-definite matrices. *)
Definition symmetric n (A : 'M[R]_n) : Prop := A^T = A.

Definition quadratic_form n (A : 'M[R]_n) (x : 'cV[R]_n) : R :=
  (x^T *m A *m x) 0 0.

Definition positive_definite n (A : 'M[R]_n) : Prop :=
  forall x : 'cV[R]_n, x != 0 -> (0 < quadratic_form A x)%Re.

Definition spd n (A : 'M[R]_n) : Prop := symmetric A /\ positive_definite A.

(** Rotations: quaternions of unit norm. *)
Definition unit_norm (q : Quaternion double) : Prop :=
  squaredNorm q = 1%Re.

(** The matrix [[t]_x] of the cross product with [t]. *)
Definition skew (t : Vector3 double) : Matrix3 double :=
  mkMatrix3 (mkVector3 0%Re (- v2 t)%Re (v1 t))
            (mkVector3 (v2 t) 0%Re (- v0 t)%Re)
            (mkVector3 (- v1 t)%Re (v0 t) 0%Re).

(** The essential matrix [E = [t]_x R] of a relative pose. *)
Definition essential_matrix (q : Quaternion double) (t : Vector3 double)
    : Matrix3 double :=
  mulmm (skew t) (toRotationMatrix q).

Definition homogeneous (x : Vector2 double) : Vector3 double :=
  mkVector3 (u0 x) (u1 x) 1%Re.

(** The epipolar constraint [x2^T E x1] and the sum of the squares of the
    first two components of [E x1] and of [E^T x2]. *)
Definition epipolar_constraint (E : Matrix3 double) (x1 x2 : Vector2 double)
    : double :=
  dot (homogeneous x2) (mulmv E (homogeneous x1)).

Definition sampson_denominator (E : Matrix3 double) (x1 x2 : Vector2 double)
    : double :=
  let Ex1 := mulmv E (homogeneous x1) in
  let Etx2 := mulmv (transpose3 E) (homogeneous x2) in
  (v0 Ex1 * v0 Ex1 + v1 Ex1 * v1 Ex1 + v0 Etx2 * v0 Etx2 +
   v1 Etx2 * v1 Etx2)%Re.

(** The outputs [out] and [out'] of two evaluations of cost functions with
    the dimensions of [h] report the same success, and every residual and
    every Jacobian entry of [out] is related by [rel] to the one of
    [out']. *)
Definition entrywise (rel : double -> double -> Prop) (h : CostFunction)
    (out out' : EvaluateResult) : Prop :=
  [/\ success out' = success out,
      forall r, r < num_residuals h ->
        rel (nth 0%Re (residuals out) r) (nth 0%Re (residuals out') r)
    & forall i idx,
        i < size (parameter_block_sizes h) ->
        idx < num_residuals h * nth 0 (parameter_block_sizes h) i ->
        rel (nth 0%Re (nth [::] (jacobians out) i) idx)
            (nth 0%Re (nth [::] (jacobians out') i) idx)].

(** The labels of a [switch] are distinct. *)
Fixpoint distinct_case_labels (cases : seq CameraModel) : bool :=
  match cases with
  | [::] => true
  | CM :: cases' =>
      all (fun CM' => ~~ Z.eqb (model_id CM') (model_id CM)) cases'
      && distinct_case_labels cases'
  end.

End Vocabulary.

(** ** The vocabulary of the further properties *)

Section FurtherVocabulary.
Local Open Scope ring_scope.

(** The residuals [r] as a column vector of dimension [n]. *)
Definition column n (r : seq double) : 'cV[double]_n := \col_j nth 0%Re r j.

(** The sum of the squares of the residuals: the squared norm of the
    residual vector, which a least-squares solver minimises. *)
Definition sum_of_squares (r : seq double) : double := \sum_(x <- r) x * x.

(** The quaternion of the rotation by the angle [theta] about the axis
    [n]. *)
Definition axis_angle (n : Vector3 double) (theta : double)
    : Quaternion double :=
  mkQuaternion (v0 n * sin (theta / 2))%Re (v1 n * sin (theta / 2))%Re
               (v2 n * sin (theta / 2))%Re (cos (theta / 2)%Re).

(** The quaternion [- q], which stands for the same rotation as [q]. *)
Definition qopp (q : Quaternion double) : Quaternion double :=
  mkQuaternion (- qx q)%Re (- qy q)%Re (- qz q)%Re (- qw q)%Re.

(** The image point, in normalised coordinates, of a point [X] given in
    the frame of a camera. *)
Definition normalized_image_point (X : Vector3 double) : Vector2 double :=
  mkVector2 (v0 X / v2 X)%Re (v1 X / v2 X)%Re.

(** The output of an evaluation has the dimensions that the handle [h]
    declares: one residual per declared residual and, for every declared
    parameter block, a Jacobian with one entry per residual and parameter
    of the block. *)
Definition well_shaped (h : CostFunction) (out : EvaluateResult) : Prop :=
  [/\ size (residuals out) = num_residuals h,
      size (jacobians out) = size (parameter_block_sizes h)
    & forall i, i < size (parameter_block_sizes h) ->
        size (nth [::] (jacobians out) i)
        = (num_residuals h * nth 0 (parameter_block_sizes h) i)%N].

(** Two ways to an isotropic noise of standard deviation [sigma] on top
    of a covariance [C] agree at [parameters]: the isotropic-noise wrapper
    around the cost function that [create] makes for [C], and [create] for
    the covariance [sigma^2 C]; they report the same success, the same
    residuals and the same Jacobians. *)
Definition isotropic_noise_scales_covariance (A : Type) n
    (create : A -> 'M[double]_n -> CostFunction) (prior : A)
    (C : 'M[double]_n) (sigma : double) (parameters : seq (seq double))
    : Prop :=
  exists2 h,
    IsotropicNoiseCostFunctorWrapper.Create (fun a => create a.1 a.2) sigma
      (prior, C) = Returns h
    & entrywise (fun x x' => x' = x) h
        (Evaluate (create prior ((sigma * sigma)%Re *: C)) parameters)
        (Evaluate h parameters).

End FurtherVocabulary.

(** * Properties *)

(** ** Real arithmetic behind the ring operations *)

Section RealArithmetic.
Local Open Scope ring_scope.

Lemma RaddE (x y : R) : x + y = (x + y)%Re. Proof. by []. Qed.
Lemma RmulE (x y : R) : x * y = (x * y)%Re. Proof. by []. Qed.
Lemma RoppE (x : R) : - x = (- x)%Re. Proof. by []. Qed.
Lemma RinvE (x : R) : x != 0 -> x^-1 = (/ x)%Re.
Proof. by rewrite /GRing.inv /= /Rinv0 => /negPf ->. Qed.

Lemma RltbP (x y : R) : reflect (x < y)%Re (Rltb x y).
Proof. by rewrite /Rltb; case: Rlt_dec => h; constructor. Qed.

Lemma Rltb_0_1 : Rltb 0%Re 1%Re.
Proof. by apply/RltbP; lra. Qed.

Lemma Rltb_irrefl (x : R) : Rltb x x = false.
Proof. by apply/RltbP; exact: Rlt_irrefl. Qed.

End RealArithmetic.

(** Goals stated with the ring operations of matrices' entries are handed
    to the arithmetic procedures of the reals by naming the entries and
    exposing the operations of the reals. *)
Ltac to_R :=
  repeat match goal with
  | |- context [@fun_of_matrix _ _ _ ?M ?i ?j] =>
      let e := fresh "e" in
      set e := (@fun_of_matrix _ _ _ M i j); clearbody e
  end;
  rewrite ?RaddE ?RmulE ?RoppE;
  match goal with
  | |- @eq _ ?x ?y => change (@eq R x y)
  | _ => idtac
  end.

(** ** C1: the square-root information matrix *)

Section SquareRootInformation.
Local Open Scope ring_scope.
Import GRing.Theory.

Lemma addmx_entry m n (A B : 'M[R]_(m, n)) i j : (A + B) i j = A i j + B i j.
Proof. by rewrite mxE. Qed.

Lemma oppmx_entry m n (A : 'M[R]_(m, n)) i j : (- A) i j = - A i j.
Proof. by rewrite mxE. Qed.

Lemma scalemx_entry m n (c : R) (A : 'M[R]_(m, n)) i j :
  (c *: A) i j = c * A i j.
Proof. by rewrite mxE. Qed.

Lemma scalar_entry (c : R) : (c%:M : 'M[R]_1) 0 0 = c.
Proof. by rewrite mxE eqxx mulr1n. Qed.

Lemma mulmx11_entry (M N : 'M[R]_1) : (M *m N) 0 0 = M 0 0 * N 0 0.
Proof. by rewrite mxE big_ord_recl big_ord0 addr0. Qed.

Lemma dot_sym n (c y : 'cV[R]_n) : (y^T *m c) 0 0 = (c^T *m y) 0 0.
Proof. by rewrite -[y^T *m c]trmxK trmx_mul trmxK mxE. Qed.

Lemma ulsubmx11 n (A : 'M[R]_(1 + n)) : ulsubmx A = (A 0 0)%:M.
Proof. by rewrite [LHS]mx11_scalar !mxE !lshift0. Qed.

Lemma symmetric_blocks n (A : 'M[R]_(1 + n)) :
  symmetric A -> ursubmx A = (dlsubmx A)^T /\ symmetric (drsubmx A).
Proof. by move=> symA; rewrite /symmetric trmx_dlsub trmx_drsub symA. Qed.

(** The quadratic form of a matrix given by its corner entry, its first
    column and its lower-right block. *)
Lemma quadratic_form_block n (c : R) (b : 'cV[R]_n) (S : 'M[R]_n)
    (t : R) (y : 'cV[R]_n) :
  quadratic_form (block_mx (c%:M : 'M_1) b^T b S) (col_mx (t%:M : 'M_1) y) =
  c * t * t + (t * (b^T *m y) 0 0 + t * (b^T *m y) 0 0) + quadratic_form S y.
Proof.
rewrite /quadratic_form tr_col_mx tr_scalar_mx mul_row_block mul_row_col.
rewrite !mulmxDl mul_scalar_mx !mul_mx_scalar mul_scalar_mx -scalemxAl.
rewrite !(addmx_entry, scalemx_entry) scalar_entry dot_sym.
by to_R; ring.
Qed.

Lemma spd_pivot_gt0 n (A : 'M[R]_(1 + n)) :
  positive_definite A -> (0 < A 0%R 0%R)%Re.
Proof.
move=> /(_ (col_mx (1%:M : 'M_1) 0)).
rewrite /quadratic_form -[X in _ *m X *m _]submxK tr_col_mx tr_scalar_mx trmx0.
rewrite mul_row_block mul_row_col !mul0mx !mulmx0 !addr0 mul1mx mulmx1.
rewrite ulsubmx11 scalar_entry; apply.
by rewrite col_mx_eq0 negb_and oner_neq0.
Qed.

Lemma sqrt_pivot (c : R) :
  (0 < c)%Re -> R_sqrt.sqrt c != 0 /\ R_sqrt.sqrt c * R_sqrt.sqrt c = c.
Proof.
move=> c_gt0; split; last by rewrite RmulE sqrt_sqrt //; lra.
apply/eqP => s0; have := sqrt_lt_R0 c c_gt0; rewrite s0.
exact: Rlt_irrefl.
Qed.

Lemma schur_arith (c s u q : R) :
  (0 < c)%Re -> (s * s = c)%Re ->
  (c * (- u / c) * (- u / c) + ((- u / c) * u + (- u / c) * u) + q =
   q - (/ s * u) * (/ s * u))%Re.
Proof.
move=> c_gt0 ss; have s_neq0 : (s <> 0)%Re by move=> s0; rewrite s0 in ss; lra.
by rewrite -ss; field.
Qed.

(** What remains of a symmetric positive-definite matrix after its first
    column has been eliminated is symmetric positive-definite. *)
Lemma schur_complement_spd n (A : 'M[R]_(1 + n)) :
  spd A ->
  let A21 := (R_sqrt.sqrt (A 0 0))^-1 *: dlsubmx A in
  spd (drsubmx A - A21 *m A21^T).
Proof.
case=> symA pdA l; have [Aur symS] := symmetric_blocks symA.
have c_gt0 := spd_pivot_gt0 pdA.
have [s_neq0 ss] := sqrt_pivot c_gt0.
split; first by rewrite /symmetric linearB /= trmx_mul trmxK symS.
move=> y y_neq0.
pose u := ((dlsubmx A)^T *m y) 0 0.
pose t : R := (- u / A 0%R 0%R)%Re.
have := pdA (col_mx (t%:M : 'M_1) y).
rewrite -{1}(submxK A) Aur ulsubmx11 quadratic_form_block -/u.
rewrite col_mx_eq0 negb_and y_neq0 orbT => /(_ isT).
suff -> : quadratic_form (drsubmx A - l *m l^T) y =
          (quadratic_form (drsubmx A) y -
           (/ R_sqrt.sqrt (A 0%R 0%R) * u) *
           (/ R_sqrt.sqrt (A 0%R 0%R) * u))%Re.
  by rewrite !RaddE !RmulE (schur_arith _ _ c_gt0 ss).
rewrite /quadratic_form mulmxBr mulmxBl addmx_entry oppmx_entry.
rewrite mulmxA -[_ *m l *m _ *m _]mulmxA mulmx11_entry dot_sym.
by rewrite /l linearZ /= -scalemxAl scalemx_entry -/u (RinvE s_neq0).
Qed.

Lemma llt_matrixLS n (A : 'M[R]_(1 + n)) :
  llt_matrixL A =
  let A21 := (R_sqrt.sqrt (A 0 0))^-1 *: dlsubmx A in
  block_mx (R_sqrt.sqrt (A 0 0))%:M 0 A21
           (llt_matrixL (drsubmx A - A21 *m A21^T)).
Proof. by []. Qed.

Lemma llt_correct_step n (A : 'M[R]_(1 + n)) :
  spd A ->
  (forall S : 'M[R]_n, spd S -> llt_matrixL S *m (llt_matrixL S)^T = S) ->
  llt_matrixL A *m (llt_matrixL A)^T = A.
Proof.
move=> spdA IHn; have [symA pdA] := spdA.
have [Aur symS] := symmetric_blocks symA.
have [s_neq0 ss] := sqrt_pivot (spd_pivot_gt0 pdA).
rewrite llt_matrixLS /= tr_block_mx tr_scalar_mx trmx0 mulmx_block.
rewrite !mulmx0 !mul0mx !addr0 -scalar_mxM ss.
rewrite (IHn _ (schur_complement_spd spdA)) addrC subrK.
rewrite mul_scalar_mx mul_mx_scalar linearZ /= !scalerA divff // !scale1r.
by rewrite -Aur -ulsubmx11 submxK.
Qed.

(** The Cholesky factor of a symmetric positive-definite matrix multiplied
    by its transpose gives the matrix back. *)
Lemma llt_correct n (A : 'M[R]_n) :
  spd A -> llt_matrixL A *m (llt_matrixL A)^T = A.
Proof.
elim: n => [|n IHn] in A *; first by rewrite [LHS]flatmx0 [RHS]flatmx0.
by move=> spdA; apply: llt_correct_step.
Qed.

Lemma llt_lower_step n (A : 'M[R]_(1 + n)) :
  (forall S : 'M[R]_n, is_trig_mx (llt_matrixL S)) ->
  is_trig_mx (llt_matrixL A).
Proof.
move=> IHn.
by rewrite llt_matrixLS /= is_trig_block_mx // eqxx mx11_is_trig IHn.
Qed.

Lemma llt_lower n (A : 'M[R]_n) : is_trig_mx (llt_matrixL A).
Proof.
elim: n => [|n IHn] in A *; first by apply/is_trig_mxP => -[].
exact: llt_lower_step.
Qed.

(** A symmetric positive-definite matrix is invertible, and its inverse is
    symmetric positive-definite. *)
Lemma spd_unitmx n (A : 'M[R]_n) : spd A -> A \in unitmx.
Proof.
case=> symA pdA; rewrite -row_free_unit; apply: inj_row_free => x xA0.
apply/eqP/negPn/negP => x_neq0.
have := pdA x^T; rewrite trmx_eq0 => /(_ x_neq0).
by rewrite /quadratic_form trmxK xA0 mul0mx mxE; apply: Rlt_irrefl.
Qed.

Lemma spd_invmx n (A : 'M[R]_n) : spd A -> spd (invmx A).
Proof.
move=> spdA; have uA := spd_unitmx spdA; case: spdA => symA pdA.
split; first by rewrite /symmetric trmx_inv symA.
move=> x x_neq0; pose y := invmx A *m x.
have xE : x = A *m y by rewrite /y mulKVmx.
have y_neq0 : y != 0.
  by apply: contra_neq x_neq0 => y0; rewrite xE y0 mulmx0.
have := pdA y y_neq0; rewrite /quadratic_form.
by rewrite xE trmx_mul symA -!mulmxA mulKmx // mulmxA.
Qed.


Lemma llt_diag_step n (A : 'M[R]_(1 + n)) :
  spd A ->
  (forall S : 'M[R]_n, spd S -> forall i, (0 < llt_matrixL S i i)%Re) ->
  forall i, (0 < llt_matrixL A i i)%Re.
Proof.
move=> spdA IHn i; have c_gt0 := spd_pivot_gt0 (proj2 spdA).
rewrite llt_matrixLS /= -(splitK i); case: (split i) => j /=.
  by rewrite block_mxEul ord1 scalar_entry; apply: sqrt_lt_R0.
by rewrite block_mxEdr; apply: IHn; apply: schur_complement_spd.
Qed.

Lemma llt_diag_gt0 n (A : 'M[R]_n) :
  spd A -> forall i, (0 < llt_matrixL A i i)%Re.
Proof.
elim: n => [|n IHn] in A *; first by move=> _ [].
by move=> spdA; apply: llt_diag_step.
Qed.

(** Scalar matrices with a positive entry are symmetric
    positive-definite. *)
Lemma sum_squares_gt0 n (x : 'cV[R]_n) :
  x != 0 -> (0 < \sum_i x i 0 * x i 0)%Re.
Proof.
case/cV0Pn=> i0 /eqP xi0; rewrite (bigD1 i0) //=.
apply: Rplus_lt_le_0_compat.
  by rewrite RmulE; have := Rsqr_pos_lt _ xi0; rewrite /Rsqr.
elim/big_rec: _ => [|i y _ y_ge0]; first exact: Rle_refl.
by apply: Rplus_le_le_0_compat => //; rewrite RmulE; have := Rle_0_sqr (x i 0).
Qed.

Lemma spd_scalar_mx n (c : R) : (0 < c)%Re -> spd (c%:M : 'M[R]_n).
Proof.
move=> c_gt0; split; first exact: tr_scalar_mx.
move=> x /sum_squares_gt0 xx_gt0.
rewrite /quadratic_form mul_mx_scalar -scalemxAl scalemx_entry mxE.
rewrite (eq_bigr (fun i => x i 0 * x i 0)); first by move=> i _; rewrite mxE.
by rewrite RmulE; apply: Rmult_lt_0_compat.
Qed.

(** The Cholesky factor is unique: a lower-triangular matrix with a
    positive diagonal is the factor that [llt_matrixL] computes from its
    product with its transpose.  Whatever way a factorisation routine
    takes to a lower-triangular factor with a positive diagonal, it
    returns [llt_matrixL]. *)
Lemma block_mx_corner n (c : R) (Aur : 'M[R]_(1, n)) (Adl : 'M[R]_(n, 1))
    (Adr : 'M[R]_n) :
  (block_mx (c%:M : 'M_1) Aur Adl Adr : 'M_(1 + n)) 0 0 = c.
Proof. by rewrite -(lshift0 n 0) block_mxEul scalar_entry. Qed.

Lemma llt_unique_step n (L : 'M[R]_(1 + n)) :
  is_trig_mx L -> (forall i, (0 < L i i)%Re) ->
  (forall L' : 'M[R]_n,
     is_trig_mx L' -> (forall i, (0 < L' i i)%Re) ->
     llt_matrixL (L' *m L'^T) = L') ->
  llt_matrixL (L *m L^T) = L.
Proof.
move=> trigL diagL IHn.
have Lur : ursubmx L = 0 by apply: ursubmx_trig.
have l_gt0 : (0 < L 0%R 0%R)%Re by apply: diagL.
have l_neq0 : L 0 0 != 0.
  by apply/eqP => l0; move: l_gt0; rewrite l0; apply: Rlt_irrefl.
have sqrt_ll : R_sqrt.sqrt (L 0 0 * L 0 0)%R = L 0 0.
  by rewrite RmulE sqrt_square //; lra.
have LLtE : L *m L^T =
    block_mx (L 0 0 * L 0 0)%:M (L 0 0 *: (dlsubmx L)^T) (L 0 0 *: dlsubmx L)
             (dlsubmx L *m (dlsubmx L)^T + drsubmx L *m (drsubmx L)^T).
  rewrite -{1 2}(submxK L) Lur ulsubmx11 tr_block_mx tr_scalar_mx trmx0.
  rewrite mulmx_block !mulmx0 !mul0mx !addr0 -scalar_mxM.
  by rewrite mul_scalar_mx mul_mx_scalar.
rewrite llt_matrixLS /= LLtE block_mxKdl block_mxKdr.
rewrite block_mx_corner sqrt_ll.
have trigL' : is_trig_mx (drsubmx L) by apply: drsubmx_trig.
have diagL' i : (0 < drsubmx L i i)%Re.
  by have := diagL (rshift 1 i); rewrite -{1}(submxK L) block_mxEdr.
rewrite scalerA mulVf // scale1r addrC addKr (IHn _ trigL' diagL').
by rewrite -[RHS](submxK L) Lur ulsubmx11.
Qed.

Lemma llt_unique n (L : 'M[R]_n) :
  is_trig_mx L -> (forall i, (0 < L i i)%Re) ->
  llt_matrixL (L *m L^T) = L.
Proof.
elim: n => [|n IHn] in L *; first by rewrite [LHS]flatmx0 [RHS]flatmx0.
by move=> trigL diagL; apply: llt_unique_step.
Qed.

(** The isotropic covariance [sigma^2 I] has the square-root information
    [(1 / sigma) I]. *)
Lemma llt_matrixL_scalar n (c : R) :
  llt_matrixL (c%:M : 'M[R]_n) = (R_sqrt.sqrt c)%:M.
Proof.
elim: n => [|n IHn]; first by rewrite [LHS]flatmx0 [RHS]flatmx0.
have c00 : (c%:M : 'M[R]_(1 + n)) 0 0 = c by rewrite mxE eqxx mulr1n.
have dl : dlsubmx (c%:M : 'M[R]_(1 + n)) = 0.
  by rewrite scalar_mx_block block_mxKdl.
have dr : drsubmx (c%:M : 'M[R]_(1 + n)) = c%:M.
  by rewrite scalar_mx_block block_mxKdr.
rewrite (llt_matrixLS (c%:M : 'M_(1 + n))) /= c00 dl dr.
by rewrite scaler0 mul0mx subr0 IHn -scalar_mx_block.
Qed.

Lemma SqrtInformation_isotropic n (sigma : R) :
  (0 < sigma)%Re ->
  SqrtInformation ((sigma * sigma)%:M : 'M[R]_n) = ((/ sigma)%Re)%:M.
Proof.
move=> sigma_gt0; have sigma_neq0 : sigma * sigma != 0.
  by apply/eqP; rewrite RmulE => /Rmult_integral [] ?; lra.
rewrite /SqrtInformation invmx_scalar llt_matrixL_scalar tr_scalar_mx.
by rewrite (RinvE sigma_neq0) sqrt_inv RmulE sqrt_square //; lra.
Qed.

(** C1. For every symmetric positive-definite covariance matrix [C], of any
    dimension and so of dimension 3 and 6, [SqrtInformation C] is the
    upper-triangular Cholesky factor [R] of the inverse of [C]: [R^T R] is
    [invmx C], [R] has nothing below its diagonal and a positive diagonal,
    and [invmx C] is the inverse of [C]. *)
Theorem SqrtInformation_correct n (C : 'M[double]_n) :
  spd C ->
  [/\ (SqrtInformation C)^T *m SqrtInformation C = invmx C,
      is_trig_mx (SqrtInformation C)^T,
      forall i, (0 < SqrtInformation C i i)%Re
    & C *m invmx C = 1%:M /\ invmx C *m C = 1%:M].
Proof.
move=> spdC; have uC := spd_unitmx spdC; have spdV := spd_invmx spdC.
split; last by rewrite mulmxV // mulVmx.
- by rewrite /SqrtInformation trmxK llt_correct.
- by rewrite /SqrtInformation trmxK llt_lower.
- by move=> i; rewrite /SqrtInformation mxE; apply: llt_diag_gt0.
Qed.

(** The covariance [4 I] of dimension 6. *)
Lemma SqrtInformation_correct_witness :
  let C : 'M[double]_6 := (4%Re)%:M in
  [/\ (SqrtInformation C)^T *m SqrtInformation C = invmx C,
      is_trig_mx (SqrtInformation C)^T,
      forall i, (0 < SqrtInformation C i i)%Re
    & C *m invmx C = 1%:M /\ invmx C *m C = 1%:M].
Proof.
apply: SqrtInformation_correct; apply: spd_scalar_mx; lra.
Defined.

End SquareRootInformation.

(** ** Quaternions and rotations over the reals *)

(** Unfolds the vector and quaternion operations down to the operations of
    the reals. *)
Ltac eigen_unfold :=
  cbv [transformVector toRotationMatrix conjugate qmul squaredNorm
       cross vadd vsub vopp vscale vscale_r dot vec mulmv mulmm transpose3
       col0 col1 col2 row0 row1 row2 v0 v1 v2 u0 u1 qx qy qz qw
       add sub mul div opp cast double_Scalar].

Section QuaternionAlgebra.

Lemma EigenQuaternionMap_coeffs (T : Type) (ST : Scalar T) (q : Quaternion T) :
  EigenQuaternionMap (coeffs q) = q.
Proof. by case: q. Qed.

Lemma EigenVector3Map_data (T : Type) (ST : Scalar T) (x : Vector3 T) :
  EigenVector3Map (data x) = x.
Proof. by case: x. Qed.

Lemma qcast_double (q : Quaternion double) : qcast q = q.
Proof. by case: q. Qed.

Lemma vcast_double (x : Vector3 double) : vcast x = x.
Proof. by case: x. Qed.

(** The rotation of a vector by a quaternion is the product with its
    rotation matrix. *)
Lemma transformVector_toRotationMatrix (q : Quaternion double)
    (x : Vector3 double) :
  transformVector q x = mulmv (toRotationMatrix q) x.
Proof.
case: q x => [qx qy qz qw] [x0 x1 x2].
by eigen_unfold; congr mkVector3; ring.
Qed.

Lemma transformVector_vadd (q : Quaternion double) (x y : Vector3 double) :
  transformVector q (vadd x y)
  = vadd (transformVector q x) (transformVector q y).
Proof.
case: q x y => [qx qy qz qw] [x0 x1 x2] [y0 y1 y2].
by eigen_unfold; congr mkVector3; ring.
Qed.

Lemma transformVector_vsub (q : Quaternion double) (x y : Vector3 double) :
  transformVector q (vsub x y)
  = vsub (transformVector q x) (transformVector q y).
Proof.
case: q x y => [qx qy qz qw] [x0 x1 x2] [y0 y1 y2].
by eigen_unfold; congr mkVector3; ring.
Qed.

Lemma transformVector_vopp (q : Quaternion double) (x : Vector3 double) :
  transformVector q (vopp x) = vopp (transformVector q x).
Proof.
case: q x => [qx qy qz qw] [x0 x1 x2].
by eigen_unfold; congr mkVector3; ring.
Qed.

(** For a quaternion of unit norm, [w w] is determined by the vector
    part. *)
Lemma unit_norm_ww (x y z w : R) :
  unit_norm (mkQuaternion x y z w) -> (w * w = 1 - x * x - y * y - z * z)%Re.
Proof. by rewrite /unit_norm; eigen_unfold => <-; ring. Qed.

Lemma unit_norm_conjugate (q : Quaternion double) :
  unit_norm q -> unit_norm (conjugate q).
Proof. by case: q => x y z w; rewrite /unit_norm; eigen_unfold => <-; ring. Qed.

Lemma unit_norm_qmul (p q : Quaternion double) :
  unit_norm p -> unit_norm q -> unit_norm (qmul p q).
Proof.
case: p q => [x y z w] [x' y' z' w'] /unit_norm_ww Hw /unit_norm_ww Hw'.
by rewrite /unit_norm; eigen_unfold; ring [Hw Hw'].
Qed.

Lemma conjugateK (q : Quaternion double) : conjugate (conjugate q) = q.
Proof. by case: q => x y z w; eigen_unfold; congr mkQuaternion; ring. Qed.

Lemma qinverse_unit (q : Quaternion double) :
  unit_norm q -> qinverse q = conjugate q.
Proof.
rewrite /qinverse => ->; rewrite [lt _ _]Rltb_0_1.
by case: q => x y z w; eigen_unfold; congr mkQuaternion; field.
Qed.

Lemma qmul_conjugate_unit (q : Quaternion double) :
  unit_norm q -> qmul q (conjugate q) = mkQuaternion 0%Re 0%Re 0%Re 1%Re.
Proof.
case: q => x y z w /unit_norm_ww Hw.
by eigen_unfold; congr mkQuaternion; ring [Hw].
Qed.

Lemma transformVector_conjugateK (q : Quaternion double) (x : Vector3 double) :
  unit_norm q -> transformVector (conjugate q) (transformVector q x) = x.
Proof.
case: q x => [x y z w] [x0 x1 x2] /unit_norm_ww Hw.
by eigen_unfold; congr mkVector3; ring [Hw].
Qed.

Lemma transformVector_conjugateKV (q : Quaternion double) (x : Vector3 double) :
  unit_norm q -> transformVector q (transformVector (conjugate q) x) = x.
Proof.
move=> /unit_norm_conjugate /transformVector_conjugateK.
by rewrite conjugateK.
Qed.

Lemma transformVector_qmul (p q : Quaternion double) (x : Vector3 double) :
  unit_norm p -> unit_norm q ->
  transformVector (qmul p q) x = transformVector p (transformVector q x).
Proof.
case: p q x => [x y z w] [x' y' z' w'] [x0 x1 x2].
move=> /unit_norm_ww Hw /unit_norm_ww Hw'.
by eigen_unfold; congr mkVector3; ring [Hw Hw'].
Qed.


(** The rotation logarithm of a quaternion without vector part is zero,
    whatever its scalar part. *)
Lemma EigenQuaternionToAngleAxis_scalar (w : double) :
  EigenQuaternionToAngleAxis (coeffs (mkQuaternion 0%Re 0%Re 0%Re w)) =
  [:: 0%Re; 0%Re; 0%Re].
Proof.
rewrite /EigenQuaternionToAngleAxis /QuaternionToAngleAxis /coeffs /at_ /=.
have -> : (0 * 0 + 0 * 0 + 0 * 0 = 0)%Re by ring.
by rewrite Rltb_irrefl Rmult_0_l.
Qed.

(** Whitening is the product of the matrix with the residual vector. *)
Lemma applyOnTheLeft_mulmx n (M : 'M[double]_n) (r : seq double) (i : 'I_n) :
  nth 0%Re (applyOnTheLeft M r) i = ((M *m \col_j nth 0%Re r j) i 0)%R.
Proof.
rewrite /applyOnTheLeft (nth_map i) ?size_enum_ord // nth_ord_enum mxE.
by apply: eq_bigr => j _; rewrite mxE.
Qed.

Lemma map_const_seq (A B : Type) (c : B) (s : seq A) :
  [seq c | _ <- s] = nseq (size s) c.
Proof. by elim: s => //= _ s ->. Qed.

(** Whitening maps the zero vector to the zero vector. *)
Lemma applyOnTheLeft_zero n (M : 'M[double]_n) (r : seq double) :
  all (fun x => x == 0%Re) r ->
  applyOnTheLeft M r = nseq n 0%Re.
Proof.
move=> /all_nthP r0; rewrite /applyOnTheLeft.
rewrite (@eq_map _ _ _ (fun=> 0%Re)) => [i|].
  elim/big_rec: _ => //= j y _ ->; rewrite Rplus_0_r /at_.
  case: (ltnP j (size r)) => [/(r0 0%Re) /eqP ->|/(nth_default 0%Re) ->];
    exact: Rmult_0_r.
by rewrite map_const_seq size_enum_ord.
Qed.

End QuaternionAlgebra.

(** ** C2, C3, C4: the reprojection residuals *)

Section Reprojection.

Lemma transformVector_identity (x : Vector3 double) :
  transformVector (mkQuaternion 0%Re 0%Re 0%Re 1%Re) x = x.
Proof. by case: x => x0 x1 x2; eigen_unfold; congr mkVector3; ring. Qed.

Lemma vadd_zero (x : Vector3 double) : vadd x (mkVector3 0%Re 0%Re 0%Re) = x.
Proof. by case: x => x0 x1 x2; eigen_unfold; congr mkVector3; ring. Qed.

(** C2. The free-pose reprojection residual is the projection by the camera
    model of [R X + t], where [R] is the rotation matrix of the pose, minus
    the observed pixel; when that projection is the observed pixel the
    residual is the zero 2-vector. *)
Theorem ReprojErrorCostFunctor_residual (CM : CameraModel)
    (point2D : Vector2 double)
    (cam_from_world_rotation cam_from_world_translation point3D
       camera_params : seq double) :
  let R := toRotationMatrix (EigenQuaternionMap cam_from_world_rotation) in
  let p := vadd (mulmv R (EigenVector3Map point3D))
                (EigenVector3Map cam_from_world_translation) in
  let predicted :=
    ImgFromCam CM double_Scalar camera_params (v0 p) (v1 p) (v2 p) in
  let residual :=
    ReprojErrorCostFunctor.call CM (ReprojErrorCostFunctor.make point2D)
      cam_from_world_rotation cam_from_world_translation point3D
      camera_params in
  residual = (true, [:: (predicted.1 - u0 point2D)%Re;
                        (predicted.2 - u1 point2D)%Re]) /\
  (predicted = (u0 point2D, u1 point2D) -> residual = (true, [:: 0%Re; 0%Re])).
Proof.
move=> R p predicted residual.
have -> : residual = (true, [:: (predicted.1 - u0 point2D)%Re;
                                (predicted.2 - u1 point2D)%Re]).
  rewrite /residual /ReprojErrorCostFunctor.call.
  by rewrite transformVector_toRotationMatrix.
by split=> // ->; rewrite /= !Rminus_diag.
Qed.

(** The example of the specification: identity pose, point (0, 0, 5),
    pinhole model with focal length 1 and principal point 0, observed pixel
    (0, 0). *)
Lemma ReprojErrorCostFunctor_residual_witness :
  ReprojErrorCostFunctor.call SimplePinholeCameraModel
    (ReprojErrorCostFunctor.make (mkVector2 0%Re 0%Re))
    [:: 0%Re; 0%Re; 0%Re; 1%Re] [:: 0%Re; 0%Re; 0%Re]
    [:: 0%Re; 0%Re; 5%Re] [:: 1%Re; 0%Re; 0%Re] =
  (true, [:: 0%Re; 0%Re]).
Proof.
apply: (proj2 (ReprojErrorCostFunctor_residual SimplePinholeCameraModel
                 (mkVector2 0%Re 0%Re) [:: 0%Re; 0%Re; 0%Re; 1%Re]
                 [:: 0%Re; 0%Re; 0%Re] [:: 0%Re; 0%Re; 5%Re]
                 [:: 1%Re; 0%Re; 0%Re])).
rewrite /SimplePinholeCameraModel /ImgFromCam /EigenQuaternionMap
  /EigenVector3Map /at_; eigen_unfold; cbv [nth].
by congr pair; field.
Defined.


(** A residual that is not zero: the point (1, 2, 4) seen from the identity
    pose by the pinhole model of focal length 2 projects to (1/2, 1); with
    the observation (0, 1) the residual is (1/2, 0). *)
Example ReprojErrorCostFunctor_example :
  ReprojErrorCostFunctor.call SimplePinholeCameraModel
    (ReprojErrorCostFunctor.make (mkVector2 0%Re 1%Re))
    [:: 0%Re; 0%Re; 0%Re; 1%Re] [:: 0%Re; 0%Re; 0%Re]
    [:: 1%Re; 2%Re; 4%Re] [:: 2%Re; 0%Re; 0%Re] =
  (true, [:: (1 / 2)%Re; 0%Re]).
Proof.
rewrite /ReprojErrorCostFunctor.call /SimplePinholeCameraModel /ImgFromCam
  /EigenQuaternionMap /EigenVector3Map /at_ /ReprojErrorCostFunctor.make.
eigen_unfold; cbv [nth fst snd ReprojErrorCostFunctor.observed_x_
                   ReprojErrorCostFunctor.observed_y_].
by congr (_, [:: _; _]); field.
Qed.

(** C3. The fixed-pose functor constructed with the pose [P] gives the
    residual of the free-pose functor evaluated at the pose [P], for the
    same point, camera parameters and observation: at every scalar type,
    with the coefficients of [P] cast to it, and so at [double] with the
    coefficients of [P] themselves. *)
Theorem ReprojErrorConstantPoseCostFunctor_delegates (CM : CameraModel)
    (P : Rigid3d) (point2D : Vector2 double) :
  (forall (T : Type) (ST : Scalar T) (point3D camera_params : seq T),
     ReprojErrorConstantPoseCostFunctor.call CM
       (ReprojErrorConstantPoseCostFunctor.make P point2D)
       point3D camera_params =
     ReprojErrorCostFunctor.call CM (ReprojErrorCostFunctor.make point2D)
       (coeffs (qcast (rotation P))) (data (vcast (translation P)))
       point3D camera_params) /\
  (forall point3D camera_params : seq double,
     ReprojErrorConstantPoseCostFunctor.call CM
       (ReprojErrorConstantPoseCostFunctor.make P point2D)
       point3D camera_params =
     ReprojErrorCostFunctor.call CM (ReprojErrorCostFunctor.make point2D)
       (coeffs (rotation P)) (data (translation P))
       point3D camera_params).
Proof.
split=> [T ST|] point3D camera_params //.
Qed.

(** C4. With the identity camera-from-rig transform (identity rotation,
    zero translation) the rig reprojection residual is the free-pose
    reprojection residual at the rig-from-world pose. *)
Theorem RigReprojErrorCostFunctor_identity_rig (CM : CameraModel)
    (point2D : Vector2 double)
    (rig_from_world_rotation rig_from_world_translation point3D
       camera_params : seq double) :
  RigReprojErrorCostFunctor.call CM (RigReprojErrorCostFunctor.make point2D)
    (coeffs (mkQuaternion 0%Re 0%Re 0%Re 1%Re))
    (data (mkVector3 0%Re 0%Re 0%Re))
    rig_from_world_rotation rig_from_world_translation point3D
    camera_params =
  ReprojErrorCostFunctor.call CM (ReprojErrorCostFunctor.make point2D)
    rig_from_world_rotation rig_from_world_translation point3D
    camera_params.
Proof.
rewrite /RigReprojErrorCostFunctor.call /ReprojErrorCostFunctor.call.
rewrite EigenQuaternionMap_coeffs EigenVector3Map_data.
by rewrite transformVector_identity vadd_zero.
Qed.

End Reprojection.

(** ** C5: the Sampson error *)

Section Sampson.

Lemma skew_cross (t y : Vector3 double) : mulmv (skew t) y = cross t y.
Proof.
case: t y => [t0 t1 t2] [y0 y1 y2].
by rewrite /skew; eigen_unfold; congr mkVector3; ring.
Qed.

(** The essential matrix maps [x] to [t x (R x)]. *)
Lemma essential_matrix_cross (q : Quaternion double) (t x : Vector3 double) :
  mulmv (essential_matrix q t) x = cross t (transformVector q x).
Proof.
case: q t x => [qx qy qz qw] [t0 t1 t2] [x0 x1 x2].
by rewrite /essential_matrix /skew; eigen_unfold; congr mkVector3; ring.
Qed.

(** C5. The Sampson residual is the square of [x2^T E x1] divided by the
    sum of the squares of the first two components of [E x1] and of
    [E^T x2], for the essential matrix [E = [t]_x R] of the parameters; it
    is zero whenever [x2^T E x1 = 0] and the denominator is not zero. *)
Theorem SampsonErrorCostFunctor_residual (x1 x2 : Vector2 double)
    (cam2_from_cam1_rotation cam2_from_cam1_translation : seq double) :
  let E := essential_matrix (EigenQuaternionMap cam2_from_cam1_rotation)
                            (EigenVector3Map cam2_from_cam1_translation) in
  let residual :=
    SampsonErrorCostFunctor.call (SampsonErrorCostFunctor.make x1 x2)
      cam2_from_cam1_rotation cam2_from_cam1_translation in
  residual =
    (true, [:: (epipolar_constraint E x1 x2 * epipolar_constraint E x1 x2 /
                sampson_denominator E x1 x2)%Re]) /\
  (epipolar_constraint E x1 x2 = 0%Re -> sampson_denominator E x1 x2 <> 0%Re ->
   residual = (true, [:: 0%Re])).
Proof.
move=> E residual.
have -> : residual =
    (true, [:: (epipolar_constraint E x1 x2 * epipolar_constraint E x1 x2 /
                sampson_denominator E x1 x2)%Re]) by [].
by split=> // -> d_neq0; congr (_, [:: _]); field.
Qed.

(** Identity rotation, translation (1, 0, 0), and the correspondence of the
    two image centres: the epipolar constraint holds and the denominator
    is 2. *)
Lemma SampsonErrorCostFunctor_residual_witness :
  SampsonErrorCostFunctor.call
    (SampsonErrorCostFunctor.make (mkVector2 0%Re 0%Re) (mkVector2 0%Re 0%Re))
    [:: 0%Re; 0%Re; 0%Re; 1%Re] [:: 1%Re; 0%Re; 0%Re] =
  (true, [:: 0%Re]).
Proof.
apply: (proj2 (SampsonErrorCostFunctor_residual (mkVector2 0%Re 0%Re)
                 (mkVector2 0%Re 0%Re) [:: 0%Re; 0%Re; 0%Re; 1%Re]
                 [:: 1%Re; 0%Re; 0%Re])).
  rewrite /epipolar_constraint /essential_matrix /skew /homogeneous
    /EigenQuaternionMap /EigenVector3Map /at_; eigen_unfold; cbv [nth].
  by ring.
rewrite /sampson_denominator /essential_matrix /skew /homogeneous
  /EigenQuaternionMap /EigenVector3Map /at_; eigen_unfold; cbv [nth].
by lra.
Defined.

End Sampson.

(** ** C6: the success flag *)

Section SuccessFlag.

Lemma essential_matrix_zero_translation (q : Quaternion double)
    (x1 x2 : Vector2 double) :
  sampson_denominator (essential_matrix q (mkVector3 0%Re 0%Re 0%Re)) x1 x2
  = 0%Re.
Proof.
case: q x1 x2 => [qx qy qz qw] [a1 b1] [a2 b2].
by rewrite /sampson_denominator /essential_matrix /skew /homogeneous;
   eigen_unfold; ring.
Qed.

(** C6. At every scalar type and for every input, each residual functor
    returns the success flag [true].  The Sampson functor does so in the
    degenerate configuration of a zero translation too, where the
    denominator of its quotient is zero: the quotient is formed without a
    test. *)
Theorem functors_report_success (T : Type) (ST : Scalar T) :
  [/\ forall CM f r t X c,
        (@ReprojErrorCostFunctor.call T ST CM f r t X c).1 = true,
      forall CM f X c,
        (@ReprojErrorConstantPoseCostFunctor.call T ST CM f X c).1 = true,
      forall CM f r t c,
        (@ReprojErrorConstantPoint3DCostFunctor.call T ST CM f r t c).1 = true,
      forall CM f r1 t1 r2 t2 X c,
        (@RigReprojErrorCostFunctor.call T ST CM f r1 t1 r2 t2 X c).1 = true
    & forall CM f r t X c,
        (@RigReprojErrorConstantRigCostFunctor.call T ST CM f r t X c).1
        = true] /\
  [/\ forall f r t, (@SampsonErrorCostFunctor.call T ST f r t).1 = true,
      forall f r t, (@AbsolutePosePriorCostFunctor.call T ST f r t).1 = true,
      forall f r t,
        (@AbsolutePosePositionPriorCostFunctor.call T ST f r t).1 = true,
      forall f r1 t1 r2 t2,
        (@RelativePosePriorCostFunctor.call T ST f r1 t1 r2 t2).1 = true
    & forall f X r t s,
        (@Point3DAlignmentCostFunctor.call T ST f X r t s).1 = true] /\
  (forall (x1 x2 : Vector2 double) (r : seq double),
     let t := [:: 0%Re; 0%Re; 0%Re] in
     sampson_denominator
       (essential_matrix (EigenQuaternionMap r) (EigenVector3Map t)) x1 x2
     = 0%Re /\
     (SampsonErrorCostFunctor.call (SampsonErrorCostFunctor.make x1 x2) r t).1
     = true).
Proof.
do 2![split; first by split].
by move=> x1 x2 r t; split=> //; apply: essential_matrix_zero_translation.
Qed.

End SuccessFlag.

(** ** C7, C8: the pose priors *)

Section PosePriors.

Lemma vadd_vopp (x : Vector3 double) :
  vadd x (vopp x) = mkVector3 0%Re 0%Re 0%Re.
Proof. by case: x => x0 x1 x2; eigen_unfold; congr mkVector3; ring. Qed.

Lemma zero_residual6 n (M : 'M[double]_n) :
  applyOnTheLeft M ([:: 0%Re; 0%Re; 0%Re] ++ data (mkVector3 0%Re 0%Re 0%Re))
  = nseq n 0%Re.
Proof. by apply: applyOnTheLeft_zero; rewrite /= !eqxx. Qed.

Lemma voppK (x : Vector3 double) : vopp (vopp x) = x.
Proof. by case: x => x0 x1 x2; eigen_unfold; congr mkVector3; ring. Qed.

(** The rigid transforms with a rotation of unit norm: inverting twice
    gives the transform back, and a transform composed with its inverse is
    the identity. *)
Lemma Inverse_involutive (b_from_a : Rigid3d) :
  unit_norm (rotation b_from_a) -> Inverse (Inverse b_from_a) = b_from_a.
Proof.
case: b_from_a => q t /= unit_q; rewrite /Inverse /=.
rewrite (qinverse_unit unit_q) (qinverse_unit (unit_norm_conjugate unit_q)).
by rewrite conjugateK transformVector_vopp transformVector_conjugateKV ?voppK.
Qed.

Lemma Rigid3d_mul_Inverse (b_from_a : Rigid3d) :
  unit_norm (rotation b_from_a) ->
  Rigid3d_mul b_from_a (Inverse b_from_a)
  = mkRigid3d (mkQuaternion 0%Re 0%Re 0%Re 1%Re) (mkVector3 0%Re 0%Re 0%Re).
Proof.
case: b_from_a => q t /= unit_q; rewrite /Rigid3d_mul /Inverse /=.
rewrite (qinverse_unit unit_q) (qmul_conjugate_unit unit_q).
by rewrite transformVector_conjugateKV // vadd_vopp.
Qed.

(** C7. For every prior pose whose rotation has unit norm and every
    symmetric positive-definite covariance, the absolute-pose-prior
    residual at the prior pose is the zero 6-vector: the rotation part and
    the translation part both vanish and whitening keeps the zero
    vector. *)
Theorem AbsolutePosePriorCostFunctor_zero_at_prior
    (cam_from_world_prior : Rigid3d) (cam_cov_from_world_prior : 'M[double]_6) :
  unit_norm (rotation cam_from_world_prior) ->
  spd cam_cov_from_world_prior ->
  let q := EigenQuaternionMap (coeffs (rotation cam_from_world_prior)) in
  let world_from_cam_prior := Inverse cam_from_world_prior in
  [/\ EigenQuaternionToAngleAxis
        (coeffs (qmul q (rotation world_from_cam_prior)))
      = [:: 0%Re; 0%Re; 0%Re],
      vadd (translation cam_from_world_prior)
           (transformVector q (translation world_from_cam_prior))
      = mkVector3 0%Re 0%Re 0%Re
    & AbsolutePosePriorCostFunctor.call
        (AbsolutePosePriorCostFunctor.make cam_from_world_prior
                                           cam_cov_from_world_prior)
        (coeffs (rotation cam_from_world_prior))
        (data (translation cam_from_world_prior))
      = (true, nseq 6 0%Re)].
Proof.
case: cam_from_world_prior => q t /= unit_q _.
have rotE : EigenQuaternionToAngleAxis (coeffs (qmul q (qinverse q)))
            = [:: 0%Re; 0%Re; 0%Re].
  by rewrite qinverse_unit // qmul_conjugate_unit //
             EigenQuaternionToAngleAxis_scalar.
have trE : vadd t (transformVector q (transformVector (qinverse q) (vopp t)))
           = mkVector3 0%Re 0%Re 0%Re.
  by rewrite qinverse_unit // transformVector_conjugateKV // vadd_vopp.
rewrite EigenQuaternionMap_coeffs; split=> //.
rewrite /AbsolutePosePriorCostFunctor.call /AbsolutePosePriorCostFunctor.make.
rewrite /Inverse EigenQuaternionMap_coeffs EigenVector3Map_data.
by rewrite qcast_double vcast_double rotE trE zero_residual6.
Qed.


(** The prior pose with rotation (3/5, 0, 0, 4/5) and translation
    (1, 2, 3), and the covariance [4 I]. *)
Lemma AbsolutePosePriorCostFunctor_zero_at_prior_witness :
  let prior :=
    mkRigid3d (mkQuaternion (3 / 5)%Re 0%Re 0%Re (4 / 5)%Re)
              (mkVector3 1%Re 2%Re 3%Re) in
  AbsolutePosePriorCostFunctor.call
    (AbsolutePosePriorCostFunctor.make prior ((4%Re)%:M)%R)
    (coeffs (rotation prior)) (data (translation prior))
  = (true, nseq 6 0%Re).
Proof.
move=> prior.
have unit_prior : unit_norm (rotation prior).
  by rewrite /unit_norm /prior; eigen_unfold; cbv [rotation]; lra.
have spd_cov : spd ((4%Re)%:M : 'M[double]_6)%R by apply: spd_scalar_mx; lra.
by have [] := AbsolutePosePriorCostFunctor_zero_at_prior unit_prior spd_cov.
Defined.

Lemma relative_translation_zero (ti X : Vector3 double) :
  vadd ti (vsub (vopp (vadd ti (vopp X))) X) = mkVector3 0%Re 0%Re 0%Re.
Proof.
by case: ti X => [t0 t1 t2] [x0 x1 x2]; eigen_unfold; congr mkVector3; ring.
Qed.

(** C8. For every two estimated poses whose rotations have unit norm and
    every symmetric positive-definite covariance, when
    [i_from_world * Inverse j_from_world] is the prior on [i_from_j], the
    relative-pose-prior residual is the zero 6-vector. *)
Theorem RelativePosePriorCostFunctor_zero_at_prior
    (i_from_world j_from_world i_from_j_prior : Rigid3d)
    (i_cov_from_j_prior : 'M[double]_6) :
  unit_norm (rotation i_from_world) ->
  unit_norm (rotation j_from_world) ->
  spd i_cov_from_j_prior ->
  Rigid3d_mul i_from_world (Inverse j_from_world) = i_from_j_prior ->
  RelativePosePriorCostFunctor.call
    (RelativePosePriorCostFunctor.make i_from_j_prior i_cov_from_j_prior)
    (coeffs (rotation i_from_world)) (data (translation i_from_world))
    (coeffs (rotation j_from_world)) (data (translation j_from_world))
  = (true, nseq 6 0%Re).
Proof.
case: i_from_world j_from_world => [qi ti] [qj tj] /= unit_i unit_j _ <-.
have unit_cj := unit_norm_conjugate unit_j.
have unit_q := unit_norm_qmul unit_i unit_cj.
rewrite /RelativePosePriorCostFunctor.call /RelativePosePriorCostFunctor.make.
rewrite /Inverse /Rigid3d_mul.
rewrite !EigenQuaternionMap_coeffs !EigenVector3Map_data.
rewrite qcast_double vcast_double.
cbv [RelativePosePriorCostFunctor.j_from_i_prior_
     RelativePosePriorCostFunctor.i_sqrt_info_from_j_prior_
     rotation translation].
rewrite (qinverse_unit unit_j) (qinverse_unit unit_q).
rewrite (qmul_conjugate_unit unit_q) EigenQuaternionToAngleAxis_scalar.
rewrite transformVector_vsub (transformVector_conjugateKV _ unit_q).
rewrite (transformVector_qmul _ unit_i unit_cj) !transformVector_vopp.
by rewrite relative_translation_zero zero_residual6.
Qed.

(** The poses with rotations (0, 0, 0, 1) and (3/5, 0, 0, 4/5) and
    translations (1, 0, 0) and (0, 1, 0), the prior their exact relative
    pose, and the covariance [4 I]. *)
Lemma RelativePosePriorCostFunctor_zero_at_prior_witness :
  let i_from_world :=
    mkRigid3d (mkQuaternion 0%Re 0%Re 0%Re 1%Re) (mkVector3 1%Re 0%Re 0%Re) in
  let j_from_world :=
    mkRigid3d (mkQuaternion (3 / 5)%Re 0%Re 0%Re (4 / 5)%Re)
              (mkVector3 0%Re 1%Re 0%Re) in
  RelativePosePriorCostFunctor.call
    (RelativePosePriorCostFunctor.make
       (Rigid3d_mul i_from_world (Inverse j_from_world)) ((4%Re)%:M)%R)
    (coeffs (rotation i_from_world)) (data (translation i_from_world))
    (coeffs (rotation j_from_world)) (data (translation j_from_world))
  = (true, nseq 6 0%Re).
Proof.
move=> i_from_world j_from_world.
apply: RelativePosePriorCostFunctor_zero_at_prior => //.
- by rewrite /unit_norm /i_from_world; eigen_unfold; cbv [rotation]; lra.
- by rewrite /unit_norm /j_from_world; eigen_unfold; cbv [rotation]; lra.
- by apply: spd_scalar_mx; lra.
Defined.

End PosePriors.

(** ** C9: the isotropic-noise wrapper *)

Section ConditionedEvaluation.
Import IsotropicNoiseCostFunctorWrapper.

Lemma nth_scale_row d r n (J : seq R) idx :
  r * n + n <= size J ->
  nth 0%Re (scale_row d r n J) idx =
  if r * n <= idx < r * n + n then (nth 0%Re J idx * d)%Re else nth 0%Re J idx.
Proof.
move=> le_J; set lo := r * n in le_J *.
have le_lo : lo <= size J by apply: leq_trans le_J; apply: leq_addr.
have le_n : n <= size (drop lo J) by rewrite size_drop leq_subRL.
rewrite /scale_row -/lo nth_cat size_takel //.
case: (ltnP idx lo) => [lt_lo|ge_lo] /=; first by rewrite nth_take.
rewrite nth_cat size_map size_takel // ltn_subLR //.
case: (ltnP idx (lo + n)) => [lt_hi|ge_hi].
  rewrite (nth_map 0%Re) ?size_takel ?ltn_subLR // nth_take ?ltn_subLR //.
  by rewrite nth_drop subnKC.
by rewrite nth_drop -subnDA subnKC.
Qed.

Lemma nth_map0 (f : R -> R) (l : seq R) i :
  f 0%Re = 0%Re -> nth 0%Re (map f l) i = f (nth 0%Re l i).
Proof.
move=> f0; case: (ltnP i (size l)) => [lt_i|ge_i]; first exact: nth_map.
by rewrite !nth_default ?size_map.
Qed.

(** Read entry by entry, [scale_row] needs no assumption on the length of
    the Jacobian: beyond its end every entry reads as zero. *)
Lemma nth_scale_row_any d r n (J : seq R) idx :
  nth 0%Re (scale_row d r n J) idx =
  if r * n <= idx < r * n + n then (nth 0%Re J idx * d)%Re else nth 0%Re J idx.
Proof.
case: (leqP (r * n + n) (size J)) => [le_J|gt_J]; first exact: nth_scale_row.
set lo := r * n in gt_J *.
have f0 : (0 * d = 0)%Re by exact: Rmult_0_l.
rewrite /scale_row -/lo (drop_oversize (ltnW gt_J)) cats0.
have -> : take n (drop lo J) = drop lo J.
  by apply: take_oversize; rewrite size_drop leq_subLR; exact: ltnW.
rewrite nth_cat; case: (leqP lo (size J)) => [le_lo|gt_lo].
  rewrite size_takel //.
  case: (ltnP idx lo) => [lt_lo|ge_lo] /=; first by rewrite nth_take.
  rewrite (nth_map0 _ _ f0) nth_drop subnKC //.
  case: (ltnP idx (lo + n)) => // ge_hi.
  by rewrite nth_default ?f0 //; apply: leq_trans ge_hi; exact: ltnW.
rewrite take_oversize ?(ltnW gt_lo) // drop_oversize ?(ltnW gt_lo) //=.
case: (ltnP idx (size J)) => [lt_J|ge_J].
  by rewrite leqNgt (ltn_trans lt_J gt_lo).
by rewrite nth_nil nth_default // f0 if_same.
Qed.

Variables (N : nat) (dims : seq nat) (s : R) (st0 : EvaluateResult).
Hypothesis st0_ok : success st0.

(** The loop of [ConditionedCostFunction::Evaluate] after [k] residuals:
    the residuals before [k] and the Jacobian rows before [k] have been
    multiplied by [s], the others are those of the wrapped function. *)
Lemma condition_loop_spec k :
  k <= N ->
  let st :=
    foldl (condition_residual dims (nseq N (Some (LinearCostFunction s))))
          st0 (iota 0 k) in
  [/\ success st,
      forall r, nth 0%Re (residuals st) r =
        if r < k then (nth 0%Re (residuals st0) r * s)%Re
        else nth 0%Re (residuals st0) r
    & forall i idx, i < size dims ->
        nth 0%Re (nth [::] (jacobians st) i) idx =
        if idx < k * nth 0 dims i
        then (nth 0%Re (nth [::] (jacobians st0) i) idx * s)%Re
        else nth 0%Re (nth [::] (jacobians st0) i) idx].
Proof.
elim: k => [|k IHk] lt_k; first by split.
have [] := IHk (ltnW lt_k); set st := foldl _ _ _ => st_ok res_k jac_k.
rewrite -addn1 iotaD foldl_cat -/st addn1 [iota _ 1]/= add0n /=.
rewrite /condition_residual st_ok nth_nseq lt_k /=; split=> // [r|i idx lt_i].
  rewrite nth_set_nth /= !res_k ltnn ltnS.
  by case: (ltngtP r k) => // ->.
rewrite nth_mkseq // nth_scale_row_any jac_k // mulSn [_ + k * _]addnC.
case: (ltnP idx (k * nth 0 dims i)) => [lt_lo|ge_lo] /=.
  by rewrite (ltn_addr _ lt_lo).
by case: ifP.
Qed.

End ConditionedEvaluation.


Section IsotropicNoise.
Import IsotropicNoiseCostFunctorWrapper.
Variables (Args : Type) (CostFunctor_Create : Args -> CostFunction).

(** A standard deviation that is not positive is fatal. *)
Lemma IsotropicNoiseCostFunctorWrapper_fatal (stddev : double) (args : Args) :
  ~ (0 < stddev)%Re -> Create CostFunctor_Create stddev args = Fatal.
Proof. by rewrite /Create /THROW_CHECK_GT => /RltbP /negPf ->. Qed.

(** A failure of the wrapped cost function is passed on. *)
Lemma ConditionedCostFunction_failure (h : CostFunction)
    (conditioners : seq (option CostFunction)) (parameters : seq (seq double)) :
  success (Evaluate h parameters) = false ->
  Evaluate (ConditionedCostFunction h conditioners) parameters
  = Evaluate h parameters.
Proof.
rewrite /=; move: (Evaluate h parameters) => st st_failed.
have step r : condition_residual (parameter_block_sizes h) conditioners st r
              = st by rewrite /condition_residual st_failed.
by elim: (iota _ _) => //= r rs IHrs; rewrite step.
Qed.

(** C9. For every wrapped cost function and every [stddev > 0], the
    isotropic-noise wrapper returns a handle with the residual dimension
    and the parameter blocks of the wrapped function.  Where the wrapped
    function evaluates successfully, the handle does, and every residual
    and every Jacobian entry of the handle is the wrapped function's
    multiplied by [1 / stddev]: with [stddev = 1] they are the wrapped
    function's, with [stddev = 2] they are half the wrapped function's.  A
    failure of the wrapped function is the failure of the handle. *)
Theorem IsotropicNoiseCostFunctorWrapper_scales (stddev : double)
    (args : Args) (parameters : seq (seq double)) :
  (0 < stddev)%Re ->
  let wrapped := CostFunctor_Create args in
  let out := Evaluate wrapped parameters in
  exists2 h,
    Create CostFunctor_Create stddev args = Returns h &
    let out' := Evaluate h parameters in
    [/\ num_residuals h = num_residuals wrapped
        /\ parameter_block_sizes h = parameter_block_sizes wrapped,
        success out = false -> out' = out,
        success out ->
        entrywise (fun x x' => x' = (x * (1 / stddev))%Re) wrapped out out',
        success out -> stddev = 1%Re ->
        entrywise (fun x x' => x' = x) wrapped out out'
      & success out -> stddev = 2%Re ->
        entrywise (fun x x' => x' = (x / 2)%Re) wrapped out out'].
Proof.
move=> /RltbP stddev_gt0 wrapped out.
rewrite /Create /THROW_CHECK_GT stddev_gt0 -/wrapped; eexists; first by [].
set out' := Evaluate _ _.
have scaled : success out ->
    entrywise (fun x x' => x' = (x * (1 / stddev))%Re) wrapped out out'.
  move=> out_ok.
  have [] := condition_loop_spec (parameter_block_sizes wrapped)
               (1 / stddev)%Re out_ok (leqnn (num_residuals wrapped)).
  rewrite -/out' => out'_ok res' jac'; split; first by rewrite out'_ok out_ok.
    by move=> r lt_r; rewrite res' lt_r.
  by move=> i idx lt_i lt_idx; rewrite jac' // lt_idx.
split=> // [|out_ok stddev1|out_ok stddev2].
- exact: ConditionedCostFunction_failure.
- have [ok' res' jac'] := scaled out_ok; split=> // [r lt_r|i idx lt_i lt_idx].
    by rewrite res' // stddev1; field.
  by rewrite jac' // stddev1; field.
- have [ok' res' jac'] := scaled out_ok; split=> // [r lt_r|i idx lt_i lt_idx].
    by rewrite res' // stddev2; field.
  by rewrite jac' // stddev2; field.
Qed.

End IsotropicNoise.

(** The Sampson cost function of the image points (0, 1) and (0, 2),
    evaluated at the identity rotation and the translation (1, 0, 0): the
    epipolar constraint is -1 and the denominator is 2, so the residual is
    1/2; its derivatives with respect to the rotation are (7, 0, 0, 0) and
    those with respect to the translation are (0, 0, 0). *)
Example SampsonErrorCostFunctor_Create_example :
  let out :=
    Evaluate (SampsonErrorCostFunctor.Create (mkVector2 0%Re 1%Re)
                                             (mkVector2 0%Re 2%Re))
             [:: [:: 0%Re; 0%Re; 0%Re; 1%Re]; [:: 1%Re; 0%Re; 0%Re]] in
  [/\ success out,
      residuals out = [:: (1 / 2)%Re]
    & jacobians out = [:: [:: 7%Re; 0%Re; 0%Re; 0%Re]; [:: 0%Re; 0%Re; 0%Re]]].
Proof.
rewrite /SampsonErrorCostFunctor.Create /AutoDiffCostFunction /at_ /=.
rewrite /mkseq /= /at_ /=; split=> //; first by congr [:: _]; field.
by congr [:: [:: _; _; _; _]; [:: _; _; _]]; field.
Qed.

(** That cost function wrapped with [stddev = 2]: every residual and every
    Jacobian entry is halved; the residual 1/2 becomes 1/4 and the
    derivative 7 becomes 7/2. *)
Lemma IsotropicNoiseCostFunctorWrapper_scales_witness :
  let x1 : Vector2 double := mkVector2 0%Re 1%Re in
  let x2 : Vector2 double := mkVector2 0%Re 2%Re in
  let create (xs : Vector2 double * Vector2 double) :=
    SampsonErrorCostFunctor.Create xs.1 xs.2 in
  let parameters := [:: [:: 0%Re; 0%Re; 0%Re; 1%Re]; [:: 1%Re; 0%Re; 0%Re]] in
  let out := Evaluate (create (x1, x2)) parameters in
  exists2 h,
    IsotropicNoiseCostFunctorWrapper.Create create 2%Re (x1, x2) = Returns h &
    [/\ entrywise (fun r r' => r' = (r / 2)%Re) (create (x1, x2)) out
          (Evaluate h parameters),
        residuals out = [:: (1 / 2)%Re],
        jacobians out
        = [:: [:: 7%Re; 0%Re; 0%Re; 0%Re]; [:: 0%Re; 0%Re; 0%Re]],
        nth 0%Re (residuals (Evaluate h parameters)) 0 = (1 / 4)%Re
      & nth 0%Re (nth [::] (jacobians (Evaluate h parameters)) 0) 0
        = (7 / 2)%Re].
Proof.
move=> x1 x2 create parameters out.
have [out_ok res jac] := SampsonErrorCostFunctor_Create_example.
have stddev_gt0 : (0 < 2)%Re by lra.
have [h -> [_ _ _ _ half]] :=
  IsotropicNoiseCostFunctorWrapper_scales create (x1, x2) parameters
    stddev_gt0.
exists h => //; have entry := half out_ok (erefl 2%Re).
have [_ res' jac'] := entry.
split=> //; first by rewrite res' // [residuals _]res /=; field.
by rewrite (jac' 0 0) // [jacobians _]jac /=; field.
Defined.

(** Automatic differentiation on a small functor: the square of its one
    parameter has the derivative twice the parameter. *)
Example AutoDiffCostFunction_example :
  let square : CostFunctorCall :=
    fun T ST p =>
      (true, [:: (at_ (nth [::] p 0) 0 * at_ (nth [::] p 0) 0)%sc]) in
  Evaluate (AutoDiffCostFunction square 1 [:: 1]) [:: [:: 3%Re]]
  = mkEvaluateResult true [:: 9%Re] [:: [:: 6%Re]].
Proof.
rewrite /AutoDiffCostFunction /at_ /= mul1n /mkseq /=.
by congr (mkEvaluateResult _ [:: _] [:: [:: _]]); lra.
Qed.

(** ** C10: the dispatch on the camera model *)

Section Dispatch.
Variables (Args : Type).
Variable CostFunctor_Create : CameraModel -> Args -> CostFunction.

Lemma all_In (A : Type) (p : pred A) (s : seq A) (x : A) :
  all p s -> List.In x s -> p x.
Proof. by elim: s => //= y s IHs /andP[py ps] [<-|/(IHs ps)]. Qed.

Lemma camera_model_switch_no_case (cases : seq CameraModel)
    (id : CameraModelId) (body : CameraModel -> CostFunction) :
  (forall CM, List.In CM cases -> model_id CM <> id) ->
  camera_model_switch cases id body = Fatal.
Proof.
elim: cases => //= CM cases IHcases no_case.
have /Z.eqb_neq -> : id <> model_id CM.
  by move=> idE; apply: (no_case CM); [left | rewrite idE].
by apply: IHcases => CM' CM'_in; apply: no_case; right.
Qed.

Lemma camera_model_switch_case (cases : seq CameraModel) (CM : CameraModel)
    (body : CameraModel -> CostFunction) :
  distinct_case_labels cases -> List.In CM cases ->
  camera_model_switch cases (model_id CM) body = Returns (body CM).
Proof.
elim: cases => //= CM0 cases IHcases /andP[others distinct] [->|CM_in].
  by rewrite Z.eqb_refl.
by rewrite (negPf (all_In others CM_in)); apply: IHcases.
Qed.

Lemma camera_model_switch_first_case (cases : seq CameraModel)
    (id : CameraModelId) (body : CameraModel -> CostFunction) :
  (exists2 CM, List.In CM cases & model_id CM = id) ->
  exists2 CM, List.In CM cases /\ model_id CM = id
            & camera_model_switch cases id body = Returns (body CM).
Proof.
elim: cases => [[CM []]|CM0 cases IHcases] //= known.
case: (Z.eqb_spec id (model_id CM0)) => [idE|id_neq].
  by exists CM0 => //; split; [left|].
have [|CM [CM_in CM_id] ->] := IHcases.
  case: known => CM [CM_eq|CM_in] CM_id; last by exists CM.
  by case: id_neq; rewrite CM_eq.
by exists CM => //; split; [right|].
Qed.

(** C10. For every identifier of the closed set of camera models, the
    dispatcher returns the handle that the functor class creates for a
    camera model with that identifier, which is the only one as the labels
    of a switch are distinct; for an identifier outside the set the call is
    fatal and returns no handle. *)
Theorem CreateCameraCostFunction_dispatch (CAMERA_MODEL_CASES : seq CameraModel)
    (args : Args) :
  let dispatch :=
    CreateCameraCostFunction CAMERA_MODEL_CASES CostFunctor_Create in
  [/\ forall camera_model_id,
        (exists2 CM, List.In CM CAMERA_MODEL_CASES
                   & model_id CM = camera_model_id) ->
        exists2 CM, List.In CM CAMERA_MODEL_CASES
                    /\ model_id CM = camera_model_id
                  & dispatch camera_model_id args
                    = Returns (CostFunctor_Create CM args),
      distinct_case_labels CAMERA_MODEL_CASES ->
      forall CM, List.In CM CAMERA_MODEL_CASES ->
        dispatch (model_id CM) args = Returns (CostFunctor_Create CM args)
    & forall camera_model_id,
        (forall CM, List.In CM CAMERA_MODEL_CASES ->
           model_id CM <> camera_model_id) ->
        dispatch camera_model_id args = Fatal].
Proof.
split=> [camera_model_id known|distinct CM CM_in|camera_model_id no_case].
- exact: camera_model_switch_first_case.
- exact: camera_model_switch_case.
- exact: camera_model_switch_no_case.
Qed.

End Dispatch.

(** The two pinhole models as the closed set, the reprojection functor as
    the functor class: the identifier 1 gives the handle of the pinhole
    model with two focal lengths, whose last parameter block has its four
    parameters, and the identifier 7 is fatal. *)
Lemma CreateCameraCostFunction_dispatch_witness :
  let cases := [:: SimplePinholeCameraModel; PinholeCameraModel] in
  let point2D : Vector2 double := mkVector2 0%Re 0%Re in
  [/\ CreateCameraCostFunction cases ReprojErrorCostFunctor.Create 1%Z point2D
      = Returns (ReprojErrorCostFunctor.Create PinholeCameraModel point2D),
      parameter_block_sizes
        (ReprojErrorCostFunctor.Create PinholeCameraModel point2D)
      = [:: 4; 3; 3; 4]
    & CreateCameraCostFunction cases ReprojErrorCostFunctor.Create 7%Z point2D
      = Fatal].
Proof.
move=> cases point2D.
have [_ known unknown] :=
  CreateCameraCostFunction_dispatch ReprojErrorCostFunctor.Create cases
    point2D.
split; first by apply: (known _ PinholeCameraModel) => //; right; left.
  by [].
by apply: unknown => CM [<-|[<-|]].
Defined.
(** * Further properties *)

(** ** Whitening by the square-root information *)

Section Whitening.
Local Open Scope ring_scope.
Import GRing.Theory.

Lemma llt_unitmx n (A : 'M[R]_n) : spd A -> llt_matrixL A \in unitmx.
Proof.
move=> spdA; have := spd_unitmx spdA.
by rewrite -{1}(llt_correct spdA) unitmx_mul => /andP[].
Qed.

Lemma SqrtInformation_unitmx n (C : 'M[R]_n) :
  spd C -> SqrtInformation C \in unitmx.
Proof.
by move=> spdC; rewrite /SqrtInformation unitmx_tr llt_unitmx //;
   apply: spd_invmx.
Qed.

Lemma size_applyOnTheLeft (T : Type) (ST : Scalar T) n (M : 'M[R]_n)
    (r : seq T) :
  size (applyOnTheLeft M r) = n.
Proof. by rewrite /applyOnTheLeft size_map size_enum_ord. Qed.

Lemma column_applyOnTheLeft n (M : 'M[R]_n) (r : seq R) :
  column n (applyOnTheLeft M r) = M *m column n r.
Proof. by apply/colP => i; rewrite mxE applyOnTheLeft_mulmx. Qed.

Lemma sum_of_squares_column n (r : seq R) :
  size r = n -> sum_of_squares r = ((column n r)^T *m column n r) 0 0.
Proof.
move=> size_r; rewrite /sum_of_squares (big_nth 0%Re) size_r big_mkord mxE.
by apply: eq_bigr => i _; rewrite !mxE.
Qed.

(** X1. The square-root information matrix whitens: for every symmetric
    positive-definite covariance [C], of any dimension, an error of
    covariance [C] multiplied by [SqrtInformation C] has the identity
    covariance, [R C R^T = I]; and [R] is invertible, so that whitening
    loses nothing. *)
Theorem SqrtInformation_whitens n (C : 'M[double]_n) :
  spd C ->
  SqrtInformation C *m C *m (SqrtInformation C)^T = 1%:M /\
  SqrtInformation C \in unitmx.
Proof.
move=> spdC; split; last exact: SqrtInformation_unitmx.
have uC := spd_unitmx spdC; have spdV := spd_invmx spdC.
have uL := llt_unitmx spdV; have LLt := llt_correct spdV.
rewrite /SqrtInformation trmxK; apply: (can_inj (mulKmx uL)).
by rewrite !mulmxA LLt mulVmx // mul1mx mulmx1.
Qed.

(** The covariance [4 I] of dimension 3. *)
Lemma SqrtInformation_whitens_witness :
  let C : 'M[double]_3 := (4%Re)%:M in
  SqrtInformation C *m C *m (SqrtInformation C)^T = 1%:M /\
  SqrtInformation C \in unitmx.
Proof. apply: SqrtInformation_whitens; apply: spd_scalar_mx; lra. Defined.

(** X2. Whitened residuals measure the Mahalanobis distance: for every
    symmetric positive-definite covariance [C] and every residual vector
    [r], the sum of the squares of the residuals that
    [applyOnTheLeft (SqrtInformation C)] leaves is [r^T C^-1 r]. *)
Theorem applyOnTheLeft_SqrtInformation_mahalanobis n (C : 'M[double]_n)
    (r : seq double) :
  spd C ->
  sum_of_squares (applyOnTheLeft (SqrtInformation C) r)
  = quadratic_form (invmx C) (column n r).
Proof.
move=> spdC; have LLt := llt_correct (spd_invmx spdC).
rewrite (@sum_of_squares_column n) ?size_applyOnTheLeft //.
rewrite column_applyOnTheLeft trmx_mul /quadratic_form -LLt.
by rewrite /SqrtInformation trmxK !mulmxA.
Qed.

(** The covariance [4 I] of dimension 3 and the residuals (2, 4, 6). *)
Lemma applyOnTheLeft_SqrtInformation_mahalanobis_witness :
  let C : 'M[double]_3 := (4%Re)%:M in
  let r := [:: 2%Re; 4%Re; 6%Re] in
  sum_of_squares (applyOnTheLeft (SqrtInformation C) r)
  = quadratic_form (invmx C) (column 3 r).
Proof.
apply: applyOnTheLeft_SqrtInformation_mahalanobis; apply: spd_scalar_mx; lra.
Defined.

Lemma trig_scale n (c : R) (L : 'M[R]_n) : is_trig_mx L -> is_trig_mx (c *: L).
Proof.
move=> /is_trig_mxP trigL; apply/is_trig_mxP => i j lt_ij.
by rewrite mxE trigL // mulr0.
Qed.

Lemma spd_scale n (c : R) (A : 'M[R]_n) : (0 < c)%Re -> spd A -> spd (c *: A).
Proof.
move=> c_gt0 [symA pdA]; split; first by rewrite /symmetric linearZ /= symA.
move=> x /pdA; rewrite /quadratic_form -scalemxAr -scalemxAl scalemx_entry RmulE.
exact: Rmult_lt_0_compat.
Qed.

(** The Cholesky factor of [c^2 A] is [c] times the factor of [A]. *)
Lemma llt_matrixL_scale n (c : R) (A : 'M[R]_n) :
  (0 < c)%Re -> spd A -> llt_matrixL ((c * c) *: A) = c *: llt_matrixL A.
Proof.
move=> c_gt0 spdA; rewrite -{1}(llt_correct spdA).
have -> : (c * c) *: (llt_matrixL A *m (llt_matrixL A)^T)
          = (c *: llt_matrixL A) *m (c *: llt_matrixL A)^T.
  by rewrite linearZ /= -scalemxAl -scalemxAr scalerA.
apply: llt_unique; first by apply: trig_scale; apply: llt_lower.
move=> i; rewrite mxE RmulE; apply: Rmult_lt_0_compat => //.
exact: llt_diag_gt0.
Qed.

(** Scaling a symmetric positive-definite covariance by [sigma^2], for
    a standard deviation [sigma > 0], divides its square-root information
    matrix by [sigma]. *)
Lemma SqrtInformation_scale n (C : 'M[double]_n) (sigma : double) :
  spd C -> (0 < sigma)%Re ->
  SqrtInformation ((sigma * sigma)%Re *: C) = (/ sigma)%Re *: SqrtInformation C.
Proof.
move=> spdC sigma_gt0; have uC := spd_unitmx spdC.
have sigma_neq0 : sigma != 0.
  by apply/eqP => s0; move: sigma_gt0; rewrite s0; apply: Rlt_irrefl.
have ss_gt0 : (0 < sigma * sigma)%Re by apply: Rmult_lt_0_compat.
have inv_gt0 : (0 < / sigma)%Re by apply: Rinv_0_lt_compat.
rewrite /SqrtInformation invmxZ ?unitmxZ ?unitfE ?mulf_neq0 //.
rewrite -RmulE invfM llt_matrixL_scale ?linearZ ?(RinvE sigma_neq0) //.
exact: spd_invmx.
Qed.

End Whitening.

(** ** The whitened priors on positions and points *)

Section WhitenedPriors.
Local Open Scope ring_scope.
Import GRing.Theory.

Lemma column_eq0 n (r : seq R) :
  size r = n -> column n r = 0 -> r = nseq n 0%Re.
Proof.
move=> size_r /colP r0; apply: (@eq_from_nth _ 0%Re) => [|i].
  by rewrite size_nseq.
rewrite size_r => lt_i; rewrite nth_nseq lt_i.
by have := r0 (Ordinal lt_i); rewrite !mxE.
Qed.

Lemma column_nseq0 n : column n (nseq n 0%Re) = 0.
Proof. by apply/colP => i; rewrite !mxE nth_nseq ltn_ord. Qed.

(** Whitening by an invertible matrix sends no other vector to zero than
    the zero vector. *)
Lemma applyOnTheLeft_eq0 n (M : 'M[R]_n) (r : seq R) :
  M \in unitmx -> size r = n ->
  applyOnTheLeft M r = nseq n 0%Re -> r = nseq n 0%Re.
Proof.
move=> uM size_r Mr0; apply: column_eq0 => //.
apply: (can_inj (mulKmx uM)).
by rewrite mulmx0 -column_applyOnTheLeft Mr0 column_nseq0.
Qed.

Lemma whitened_eq0 n (C : 'M[R]_n) (r : seq R) :
  spd C -> size r = n ->
  (applyOnTheLeft (SqrtInformation C) r = nseq n 0%Re <-> r = nseq n 0%Re).
Proof.
move=> spdC size_r; split=> [|->].
  exact: applyOnTheLeft_eq0 (SqrtInformation_unitmx spdC) size_r.
by apply: applyOnTheLeft_zero; rewrite all_nseq eqxx orbT.
Qed.

Lemma data_eq0 (x : Vector3 double) :
  data x = nseq 3 0%Re <-> x = mkVector3 0%Re 0%Re 0%Re.
Proof. by case: x => x0 x1 x2; split=> [[-> -> ->]|[-> -> ->]]. Qed.

Lemma transformVector_zero (q : Quaternion double) :
  transformVector q (mkVector3 0%Re 0%Re 0%Re) = mkVector3 0%Re 0%Re 0%Re.
Proof. by case: q => x y z w; eigen_unfold; congr mkVector3; ring. Qed.

Lemma vsub_eq0 (x y : Vector3 double) :
  vsub x y = mkVector3 0%Re 0%Re 0%Re <-> x = y.
Proof.
case: x y => [x0 x1 x2] [y0 y1 y2]; eigen_unfold.
split=> [[e0 e1 e2]|[-> -> ->]]; congr mkVector3; lra.
Qed.

(** X3. The position prior vanishes exactly at the camera centre: for a
    pose whose rotation [q] has unit norm and a symmetric positive-definite
    covariance, the residual of [AbsolutePosePositionPriorCostFunctor] is
    the zero 3-vector if and only if the prior position is the point of
    the world that the pose maps to the origin of the camera frame,
    [q * prior + t = 0]. *)
Theorem AbsolutePosePositionPriorCostFunctor_zero_iff
    (position_in_world_prior : Vector3 double)
    (position_cov_in_world_prior : 'M[double]_3)
    (cam_from_world_rotation cam_from_world_translation : seq double) :
  unit_norm (EigenQuaternionMap cam_from_world_rotation) ->
  spd position_cov_in_world_prior ->
  AbsolutePosePositionPriorCostFunctor.call
    (AbsolutePosePositionPriorCostFunctor.make position_in_world_prior
                                               position_cov_in_world_prior)
    cam_from_world_rotation cam_from_world_translation
  = (true, nseq 3 0%Re)
  <->
  vadd (transformVector (EigenQuaternionMap cam_from_world_rotation)
                        position_in_world_prior)
       (EigenVector3Map cam_from_world_translation)
  = mkVector3 0%Re 0%Re 0%Re.
Proof.
rewrite /AbsolutePosePositionPriorCostFunctor.call
        /AbsolutePosePositionPriorCostFunctor.make.
cbv [AbsolutePosePositionPriorCostFunctor.position_in_world_prior_
     AbsolutePosePositionPriorCostFunctor.position_sqrt_info_in_world_prior_].
set q := EigenQuaternionMap _; set t := EigenVector3Map _ => unit_q spdC.
rewrite vcast_double (qinverse_unit unit_q); set e := vadd _ _.
have eE : transformVector q e
          = vadd (transformVector q position_in_world_prior) t.
  by rewrite /e transformVector_vadd transformVector_conjugateKV.
have size_e : size (data e) = 3 by [].
rewrite -eE; split=> [[] /(whitened_eq0 spdC size_e) /data_eq0 ->|qe0].
  exact: transformVector_zero.
have -> : e = mkVector3 0%Re 0%Re 0%Re.
  by rewrite -(transformVector_conjugateK e unit_q) qe0 transformVector_zero.
by congr (_, _); apply/(whitened_eq0 spdC).
Qed.

(** The pose with rotation (3/5, 0, 0, 4/5) and translation (1, 2, 3), whose
    centre is (-1, -86/25, 27/25), and the covariance [4 I]. *)
Lemma AbsolutePosePositionPriorCostFunctor_zero_iff_witness :
  AbsolutePosePositionPriorCostFunctor.call
    (AbsolutePosePositionPriorCostFunctor.make
       (mkVector3 (- 1)%Re (- (86 / 25))%Re (27 / 25)%Re) ((4%Re)%:M))
    [:: (3 / 5)%Re; 0%Re; 0%Re; (4 / 5)%Re] [:: 1%Re; 2%Re; 3%Re]
  = (true, nseq 3 0%Re).
Proof.
apply/AbsolutePosePositionPriorCostFunctor_zero_iff.
- by rewrite /unit_norm /EigenQuaternionMap /at_; eigen_unfold; cbv [nth]; lra.
- by apply: spd_scalar_mx; lra.
- rewrite /EigenQuaternionMap /EigenVector3Map /at_; eigen_unfold; cbv [nth].
  by congr mkVector3; field.
Defined.

(** X4. The point-alignment residual vanishes exactly where the similarity
    transform maps the point onto its prior: for every symmetric
    positive-definite covariance, the residual of
    [Point3DAlignmentCostFunctor] is the zero 3-vector if and only if
    [(q * point_in_a) * scale + t] is the prior point. *)
Theorem Point3DAlignmentCostFunctor_zero_iff
    (point_in_b_prior : Vector3 double) (point_cov_in_b_prior : 'M[double]_3)
    (point_in_a b_from_a_rotation b_from_a_translation
       b_from_a_scale : seq double) :
  spd point_cov_in_b_prior ->
  Point3DAlignmentCostFunctor.call
    (Point3DAlignmentCostFunctor.make point_in_b_prior point_cov_in_b_prior)
    point_in_a b_from_a_rotation b_from_a_translation b_from_a_scale
  = (true, nseq 3 0%Re)
  <->
  vadd (vscale_r (transformVector (EigenQuaternionMap b_from_a_rotation)
                                  (EigenVector3Map point_in_a))
                 (at_ b_from_a_scale 0))
       (EigenVector3Map b_from_a_translation)
  = point_in_b_prior.
Proof.
rewrite /Point3DAlignmentCostFunctor.call /Point3DAlignmentCostFunctor.make.
cbv [Point3DAlignmentCostFunctor.point_in_b_prior_
     Point3DAlignmentCostFunctor.point_sqrt_info_in_b_prior_].
set point_in_b := vadd _ _ => spdC; rewrite vcast_double.
have size_e : size (data (vsub point_in_b point_in_b_prior)) = 3 by [].
split=> [[] /(whitened_eq0 spdC size_e) /data_eq0 /vsub_eq0 //|/vsub_eq0 e0].
by congr (_, _); apply/(whitened_eq0 spdC size_e)/data_eq0.
Qed.

(** The point (1, 0, 0) turned by the quaternion (0, 0, 1, 0) into
    (-1, 0, 0), scaled by 2 and moved by (1, 1, 1) onto the prior
    (-1, 1, 1); the covariance [4 I]. *)
Lemma Point3DAlignmentCostFunctor_zero_iff_witness :
  Point3DAlignmentCostFunctor.call
    (Point3DAlignmentCostFunctor.make (mkVector3 (- 1)%Re 1%Re 1%Re)
                                      ((4%Re)%:M))
    [:: 1%Re; 0%Re; 0%Re] [:: 0%Re; 0%Re; 1%Re; 0%Re] [:: 1%Re; 1%Re; 1%Re]
    [:: 2%Re]
  = (true, nseq 3 0%Re).
Proof.
apply/Point3DAlignmentCostFunctor_zero_iff; first by apply: spd_scalar_mx; lra.
rewrite /EigenQuaternionMap /EigenVector3Map /at_; eigen_unfold; cbv [nth].
by congr mkVector3; field.
Defined.

Lemma applyOnTheLeft_scalar_mx n (c : R) (r : seq R) :
  size r = n -> applyOnTheLeft (c%:M : 'M[R]_n) r = [seq (c * x)%Re | x <- r].
Proof.
move=> size_r; apply: (@eq_from_nth _ 0%Re) => [|i].
  by rewrite size_applyOnTheLeft size_map.
rewrite size_applyOnTheLeft => lt_i.
rewrite (applyOnTheLeft_mulmx _ _ (Ordinal lt_i)) mul_scalar_mx !mxE /=.
by rewrite (nth_map 0%Re) ?size_r.
Qed.

(** X5. With the isotropic covariance [sigma^2 I], for a standard deviation
    [sigma > 0], whitening divides every residual by [sigma]. *)
Theorem applyOnTheLeft_SqrtInformation_isotropic n (sigma : double)
    (r : seq double) :
  (0 < sigma)%Re -> size r = n ->
  applyOnTheLeft (SqrtInformation ((sigma * sigma)%Re%:M : 'M[double]_n)) r
  = [seq (x / sigma)%Re | x <- r].
Proof.
move=> sigma_gt0 size_r.
rewrite SqrtInformation_isotropic // applyOnTheLeft_scalar_mx //.
by apply: eq_map => x; rewrite /Rdiv Rmult_comm.
Qed.

(** The covariance [4 I] of dimension 3 halves the residuals (2, 4, 6). *)
Lemma applyOnTheLeft_SqrtInformation_isotropic_witness :
  applyOnTheLeft (SqrtInformation ((2 * 2)%Re%:M : 'M[double]_3))
                 [:: 2%Re; 4%Re; 6%Re]
  = [:: (2 / 2)%Re; (4 / 2)%Re; (6 / 2)%Re].
Proof. by apply: applyOnTheLeft_SqrtInformation_isotropic => //; lra. Defined.

End WhitenedPriors.

(** ** The rotation logarithm and the pose priors *)

Section RotationLogarithm.

Lemma half_angle_bounds (theta : R) :
  (- PI < theta < PI)%Re -> (- (PI / 2) < theta / 2 < PI / 2)%Re.
Proof. by move=> ?; lra. Qed.

Lemma sin_half_neq0 (theta : R) :
  (- PI < theta < PI)%Re -> theta <> 0%Re -> sin (theta / 2) <> 0%Re.
Proof.
move=> bounds theta_neq0.
case: (Rtotal_order theta 0) => [lt0|[//|gt0]].
  have : (0 < sin (- (theta / 2)))%Re by apply: sin_gt_0; lra.
  by rewrite sin_neg; lra.
by have : (0 < sin (theta / 2))%Re; [apply: sin_gt_0|]; lra.
Qed.

(** The angle that [QuaternionToAngleAxis] recovers from the sine and the
    cosine of half an angle in the range from [- PI] to [PI]. *)
Lemma atan2_half_angle (theta : R) :
  (- PI < theta < PI)%Re -> theta <> 0%Re ->
  let s := sin (theta / 2) in
  let c := cos (theta / 2) in
  (2 * Ratan2 (R_sqrt.sqrt (s * s)) c / R_sqrt.sqrt (s * s) = theta / s)%Re.
Proof.
move=> bounds theta_neq0 s c.
have [lo hi] := half_angle_bounds bounds.
have c_gt0 : (0 < c)%Re by apply: cos_gt_0.
have s_neq0 := sin_half_neq0 bounds theta_neq0; rewrite -/s in s_neq0.
have tanE : (s / c)%Re = tan (theta / 2) by [].
rewrite /Ratan2; move/RltbP: (c_gt0) => ->.
case: (Rtotal_order theta 0) => [lt0|[//|gt0]].
  have s_lt0 : (s < 0)%Re.
    have : (0 < sin (- (theta / 2)))%Re by apply: sin_gt_0; lra.
    by rewrite sin_neg -/s; lra.
  have -> : R_sqrt.sqrt (s * s) = (- s)%Re.
    have -> : (s * s = - s * - s)%Re by ring.
    by rewrite sqrt_square //; lra.
  have -> : (- s / c)%Re = (- (s / c))%Re by field; lra.
  by rewrite atan_opp tanE atan_tan //; field.
have s_gt0 : (0 < s)%Re by apply: sin_gt_0; lra.
have -> : R_sqrt.sqrt (s * s) = s by rewrite sqrt_square //; lra.
by rewrite tanE atan_tan //; field.
Qed.

Lemma unit_norm_axis_angle (n : Vector3 double) (theta : double) :
  dot n n = 1%Re -> unit_norm (axis_angle n theta).
Proof.
case: n => n0 n1 n2; rewrite /unit_norm /axis_angle; eigen_unfold => nn.
have := sin2_cos2 (theta / 2); rewrite /Rsqr.
move: (sin _) (cos _) => s c sc.
have -> : (n0 * s * (n0 * s) + n1 * s * (n1 * s) + n2 * s * (n2 * s) + c * c
           = (n0 * n0 + n1 * n1 + n2 * n2) * (s * s) + c * c)%Re by ring.
by rewrite nn; lra.
Qed.

(** The logarithm of the quaternion of the rotation by [theta] about the
    unit axis [n] is [theta n]. *)
Lemma EigenQuaternionToAngleAxis_axis_angle_log (n : Vector3 double)
    (theta : double) :
  dot n n = 1%Re -> (- PI < theta < PI)%Re ->
  EigenQuaternionToAngleAxis (coeffs (axis_angle n theta))
  = data (vscale_r n theta).
Proof.
case: n => n0 n1 n2 nn bounds.
have [lo hi] := half_angle_bounds bounds.
have c_gt0 : (0 < cos (theta / 2))%Re by apply: cos_gt_0.
rewrite /EigenQuaternionToAngleAxis /QuaternionToAngleAxis /axis_angle /coeffs.
rewrite /data /at_; eigen_unfold; cbv [nth sqrt atan2 lt]; move: nn; eigen_unfold.
set s := sin _; set c := cos _ in c_gt0 * => nn.
have -> : (n0 * s * (n0 * s) + n1 * s * (n1 * s) + n2 * s * (n2 * s)
           = s * s)%Re.
  by rewrite -[RHS]Rmult_1_l -nn; ring.
case: (Req_dec theta 0) => [theta0|theta_neq0].
  have s0 : s = 0%Re by rewrite /s theta0 /Rdiv Rmult_0_l sin_0.
  rewrite s0 Rmult_0_l Rltb_irrefl theta0.
  by congr [:: _; _; _]; ring.
have s_neq0 : s <> 0%Re by apply: sin_half_neq0.
have ss_gt0 : (0 < s * s)%Re by have := Rsqr_pos_lt _ s_neq0.
move/RltbP: (ss_gt0) => ->.
have /RltbP/negPf -> : ~ (c < 0)%Re by lra.
have kE := atan2_half_angle bounds theta_neq0; rewrite /= -/s -/c in kE.
by rewrite kE; congr [:: _; _; _]; field.
Qed.

Lemma sum_squares3_eq0 (x y z : R) :
  ~ (0 < x * x + y * y + z * z)%Re -> [/\ x = 0%Re, y = 0%Re & z = 0%Re].
Proof.
move=> le0; have x2 := Rle_0_sqr x; have y2 := Rle_0_sqr y.
have z2 := Rle_0_sqr z; rewrite /Rsqr in x2 y2 z2.
by split; apply: Rsqr_0_uniq; rewrite /Rsqr; lra.
Qed.

(** A quaternion and its opposite stand for the same rotation, and have the
    same logarithm unless the rotation is a half turn. *)
Lemma EigenQuaternionToAngleAxis_qopp (q : Quaternion double) :
  qw q <> 0%Re ->
  EigenQuaternionToAngleAxis (coeffs (qopp q))
  = EigenQuaternionToAngleAxis (coeffs q).
Proof.
case: q => x y z w /= w_neq0.
rewrite /EigenQuaternionToAngleAxis /QuaternionToAngleAxis /qopp /coeffs.
rewrite /at_; eigen_unfold; cbv [nth sqrt atan2 lt].
have -> : (- x * - x + - y * - y + - z * - z = x * x + y * y + z * z)%Re.
  by ring.
set ss := (x * x + y * y + z * z)%Re.
case: (RltbP 0%Re ss) => [ss_gt0|/sum_squares3_eq0 [-> -> ->]]; last first.
  by congr [:: _; _; _]; ring.
have sn_gt0 := sqrt_lt_R0 _ ss_gt0; move: (R_sqrt.sqrt ss) sn_gt0 => sn sn_gt0.
have atanE : atan (- sn / w) = (- atan (sn / w))%Re.
  by rewrite -atan_opp; congr atan; field.
case: (Rtotal_order w 0) => [w_lt0|[//|w_gt0]].
  have /RltbP/negPf -> : ~ (- w < 0)%Re by lra.
  move/RltbP: (w_lt0) => ->.
  have w'_gt0 : Rltb 0 (- w) by apply/RltbP; lra.
  rewrite /Ratan2 w'_gt0.
  have -> : (sn / - w)%Re = (- sn / w)%Re by field.
  have -> : (- sn / - w)%Re = (sn / w)%Re by field.
  by rewrite atanE; congr [:: _; _; _]; field; lra.
have /RltbP -> : (- w < 0)%Re by lra.
have /RltbP/negPf -> : ~ (w < 0)%Re by lra.
rewrite Ropp_involutive /Ratan2; move/RltbP: (w_gt0) => ->.
by rewrite atanE; congr [:: _; _; _]; field; lra.
Qed.

(** X6. [EigenQuaternionToAngleAxis] is the logarithm of a rotation given
    by an Eigen quaternion, with its coefficients in the order x, y, z, w:
    for the rotation by an angle [theta] between [- PI] and [PI] about a
    unit axis [n], the quaternion of the rotation has unit norm and both
    this quaternion and its opposite give the angle-axis vector
    [theta n]. *)
Theorem EigenQuaternionToAngleAxis_axis_angle (n : Vector3 double)
    (theta : double) :
  dot n n = 1%Re -> (- PI < theta < PI)%Re ->
  [/\ unit_norm (axis_angle n theta),
      EigenQuaternionToAngleAxis (coeffs (axis_angle n theta))
      = data (vscale_r n theta)
    & EigenQuaternionToAngleAxis (coeffs (qopp (axis_angle n theta)))
      = data (vscale_r n theta)].
Proof.
move=> nn bounds; have logE := EigenQuaternionToAngleAxis_axis_angle_log nn bounds.
split=> //; first exact: unit_norm_axis_angle.
rewrite EigenQuaternionToAngleAxis_qopp //=.
have [lo hi] := half_angle_bounds bounds.
by have := cos_gt_0 _ lo hi; lra.
Qed.

(** The rotation by 1 about the third axis. *)
Lemma EigenQuaternionToAngleAxis_axis_angle_witness :
  let n := mkVector3 0%Re 0%Re 1%Re in
  [/\ unit_norm (axis_angle n 1%Re),
      EigenQuaternionToAngleAxis (coeffs (axis_angle n 1%Re))
      = data (vscale_r n 1%Re)
    & EigenQuaternionToAngleAxis (coeffs (qopp (axis_angle n 1%Re)))
      = data (vscale_r n 1%Re)].
Proof.
apply: EigenQuaternionToAngleAxis_axis_angle.
  by eigen_unfold; ring.
by have := PI2_3_2; lra.
Defined.

End RotationLogarithm.

Section PosePriorResiduals.

Lemma qmul_conjugateK (p q : Quaternion double) :
  unit_norm q -> qmul (qmul p q) (conjugate q) = p.
Proof.
case: p q => [x y z w] [x' y' z' w'] /unit_norm_ww Hw.
by eigen_unfold; congr mkQuaternion; ring [Hw].
Qed.

Lemma vadd_vaddK (d x : Vector3 double) : vadd (vadd d x) (vopp x) = d.
Proof.
by case: d x => [d0 d1 d2] [x0 x1 x2]; eigen_unfold; congr mkVector3; ring.
Qed.

(** X7. The absolute-pose-prior residual is the whitened logarithm of the
    error pose: at the pose [delta * prior], where the prior rotation has
    unit norm and [delta] is the rotation by an angle [theta] between
    [- PI] and [PI] about a unit axis [n] followed by the translation [d],
    the residual is the square-root information matrix applied to
    [(theta n, d)]. *)
Theorem AbsolutePosePriorCostFunctor_error_pose
    (cam_from_world_prior : Rigid3d) (cam_cov_from_world_prior : 'M[double]_6)
    (n d : Vector3 double) (theta : double) :
  unit_norm (rotation cam_from_world_prior) ->
  dot n n = 1%Re -> (- PI < theta < PI)%Re ->
  let delta := mkRigid3d (axis_angle n theta) d in
  let cam_from_world := Rigid3d_mul delta cam_from_world_prior in
  AbsolutePosePriorCostFunctor.call
    (AbsolutePosePriorCostFunctor.make cam_from_world_prior
                                       cam_cov_from_world_prior)
    (coeffs (rotation cam_from_world)) (data (translation cam_from_world))
  = (true,
     applyOnTheLeft (SqrtInformation cam_cov_from_world_prior)
       (data (vscale_r n theta) ++ data d)).
Proof.
case: cam_from_world_prior => q t /= unit_q nn bounds.
have unit_delta := unit_norm_axis_angle theta nn.
rewrite /AbsolutePosePriorCostFunctor.call /AbsolutePosePriorCostFunctor.make.
rewrite /Inverse /Rigid3d_mul.
cbv [AbsolutePosePriorCostFunctor.world_from_cam_prior_
     AbsolutePosePriorCostFunctor.cam_sqrt_info_from_world_prior_
     rotation translation].
rewrite EigenQuaternionMap_coeffs EigenVector3Map_data qcast_double.
rewrite vcast_double (qinverse_unit unit_q) (qmul_conjugateK _ unit_q).
rewrite (EigenQuaternionToAngleAxis_axis_angle_log nn bounds).
rewrite (transformVector_qmul _ unit_delta unit_q).
by rewrite (transformVector_conjugateKV _ unit_q) transformVector_vopp vadd_vaddK.
Qed.

(** The prior pose with rotation (3/5, 0, 0, 4/5) and translation
    (1, 2, 3), displaced by the rotation by 1 about the third axis and the
    translation (1, 1, 1); the covariance [4 I]. *)
Lemma AbsolutePosePriorCostFunctor_error_pose_witness :
  let prior :=
    mkRigid3d (mkQuaternion (3 / 5)%Re 0%Re 0%Re (4 / 5)%Re)
              (mkVector3 1%Re 2%Re 3%Re) in
  let n := mkVector3 0%Re 0%Re 1%Re in
  let d := mkVector3 1%Re 1%Re 1%Re in
  let cam_from_world := Rigid3d_mul (mkRigid3d (axis_angle n 1%Re) d) prior in
  AbsolutePosePriorCostFunctor.call
    (AbsolutePosePriorCostFunctor.make prior ((4%Re)%:M)%R)
    (coeffs (rotation cam_from_world)) (data (translation cam_from_world))
  = (true,
     applyOnTheLeft (SqrtInformation ((4%Re)%:M : 'M[double]_6)%R)
       (data (vscale_r n 1%Re) ++ data d)).
Proof.
move=> prior n d cam_from_world.
apply: AbsolutePosePriorCostFunctor_error_pose.
- by rewrite /unit_norm /prior; eigen_unfold; cbv [rotation]; lra.
- by rewrite /n; eigen_unfold; ring.
- by have := PI2_3_2; lra.
Defined.

Lemma qmul_qopp (p q : Quaternion double) :
  qmul (qopp p) q = qopp (qmul p q).
Proof.
case: p q => [x y z w] [x' y' z' w']; rewrite /qopp.
by eigen_unfold; congr mkQuaternion; ring.
Qed.

Lemma transformVector_qopp (q : Quaternion double) (x : Vector3 double) :
  transformVector (qopp q) x = transformVector q x.
Proof.
case: q x => [x y z w] [x0 x1 x2]; rewrite /qopp.
by eigen_unfold; congr mkVector3; ring.
Qed.

(** X8. The absolute-pose prior is a function of the rotation, not of the
    quaternion that stands for it: the quaternions [q] and [- q] give the
    same residual, unless the rotation from the prior to the pose is a half
    turn (its quaternion has no scalar part). *)
Theorem AbsolutePosePriorCostFunctor_quaternion_sign
    (cam_from_world_prior : Rigid3d) (cam_cov_from_world_prior : 'M[double]_6)
    (q : Quaternion double) (cam_from_world_translation : seq double) :
  qw (qmul q (rotation (Inverse cam_from_world_prior))) <> 0%Re ->
  AbsolutePosePriorCostFunctor.call
    (AbsolutePosePriorCostFunctor.make cam_from_world_prior
                                       cam_cov_from_world_prior)
    (coeffs (qopp q)) cam_from_world_translation
  = AbsolutePosePriorCostFunctor.call
      (AbsolutePosePriorCostFunctor.make cam_from_world_prior
                                         cam_cov_from_world_prior)
      (coeffs q) cam_from_world_translation.
Proof.
move=> w_neq0.
rewrite /AbsolutePosePriorCostFunctor.call /AbsolutePosePriorCostFunctor.make.
cbv [AbsolutePosePriorCostFunctor.world_from_cam_prior_
     AbsolutePosePriorCostFunctor.cam_sqrt_info_from_world_prior_].
rewrite !EigenQuaternionMap_coeffs qcast_double qmul_qopp.
by rewrite transformVector_qopp EigenQuaternionToAngleAxis_qopp.
Qed.

(** The prior pose without rotation and the quaternion (3/5, 0, 0, 4/5). *)
Lemma AbsolutePosePriorCostFunctor_quaternion_sign_witness :
  let prior :=
    mkRigid3d (mkQuaternion 0%Re 0%Re 0%Re 1%Re) (mkVector3 1%Re 2%Re 3%Re) in
  let q := mkQuaternion (3 / 5)%Re 0%Re 0%Re (4 / 5)%Re in
  let t := [:: 0%Re; 1%Re; 0%Re] in
  AbsolutePosePriorCostFunctor.call
    (AbsolutePosePriorCostFunctor.make prior ((4%Re)%:M)%R) (coeffs (qopp q)) t
  = AbsolutePosePriorCostFunctor.call
      (AbsolutePosePriorCostFunctor.make prior ((4%Re)%:M)%R) (coeffs q) t.
Proof.
move=> prior q t; apply: AbsolutePosePriorCostFunctor_quaternion_sign.
have unit_prior : unit_norm (rotation prior).
  by rewrite /unit_norm /prior; eigen_unfold; cbv [rotation]; lra.
rewrite /Inverse (qinverse_unit unit_prior) /prior /q.
by eigen_unfold; cbv [rotation]; lra.
Defined.

Lemma qmul_conjugate_cancel (p q g : Quaternion double) :
  unit_norm g -> qmul (qmul p g) (conjugate (qmul q g)) = qmul p (conjugate q).
Proof.
case: p q g => [x y z w] [x' y' z' w'] [gx gy gz gw] /unit_norm_ww Hw.
by eigen_unfold; congr mkQuaternion; ring [Hw].
Qed.

Lemma vsub_vadd (x y z : Vector3 double) :
  vsub x (vadd y z) = vsub (vsub x y) z.
Proof.
case: x y z => [x0 x1 x2] [y0 y1 y2] [z0 z1 z2].
by eigen_unfold; congr mkVector3; ring.
Qed.

Lemma vadd_vsubK (x y z : Vector3 double) :
  vadd (vadd x y) (vsub z y) = vadd x z.
Proof.
case: x y z => [x0 x1 x2] [y0 y1 y2] [z0 z1 z2].
by eigen_unfold; congr mkVector3; ring.
Qed.

(** X9. The relative-pose prior depends on the two poses only through
    their relative pose: moving the world frame by a rigid transform
    [world_from_w'], that is, composing both poses with it, leaves the
    residual unchanged (the rotations have unit norm). *)
Theorem RelativePosePriorCostFunctor_world_frame
    (i_from_world j_from_world world_from_w' i_from_j_prior : Rigid3d)
    (i_cov_from_j_prior : 'M[double]_6) :
  unit_norm (rotation i_from_world) ->
  unit_norm (rotation j_from_world) ->
  unit_norm (rotation world_from_w') ->
  let i_from_w' := Rigid3d_mul i_from_world world_from_w' in
  let j_from_w' := Rigid3d_mul j_from_world world_from_w' in
  RelativePosePriorCostFunctor.call
    (RelativePosePriorCostFunctor.make i_from_j_prior i_cov_from_j_prior)
    (coeffs (rotation i_from_w')) (data (translation i_from_w'))
    (coeffs (rotation j_from_w')) (data (translation j_from_w'))
  = RelativePosePriorCostFunctor.call
      (RelativePosePriorCostFunctor.make i_from_j_prior i_cov_from_j_prior)
      (coeffs (rotation i_from_world)) (data (translation i_from_world))
      (coeffs (rotation j_from_world)) (data (translation j_from_world)).
Proof.
case: i_from_world j_from_world world_from_w' => [qi ti] [qj tj] [g tg] /=.
move=> unit_i unit_j unit_g.
have unit_cj := unit_norm_conjugate unit_j.
rewrite /RelativePosePriorCostFunctor.call /RelativePosePriorCostFunctor.make.
rewrite /Rigid3d_mul.
cbv [RelativePosePriorCostFunctor.j_from_i_prior_
     RelativePosePriorCostFunctor.i_sqrt_info_from_j_prior_
     rotation translation].
rewrite !EigenQuaternionMap_coeffs !EigenVector3Map_data.
rewrite (qinverse_unit (unit_norm_qmul unit_j unit_g)) (qinverse_unit unit_j).
rewrite (qmul_conjugate_cancel _ _ unit_g).
rewrite vsub_vadd transformVector_vsub.
rewrite [transformVector (qmul qi _) (transformVector qj tg)]transformVector_qmul //.
by rewrite (transformVector_conjugateK _ unit_j) vadd_vsubK.
Qed.

(** The poses with rotations (0, 0, 0, 1) and (3/5, 0, 0, 4/5) and
    translations (1, 0, 0) and (0, 1, 0), the world frame moved by the
    rotation (0, 0, 1, 0) and the translation (1, 2, 3). *)
Lemma RelativePosePriorCostFunctor_world_frame_witness :
  let i_from_world :=
    mkRigid3d (mkQuaternion 0%Re 0%Re 0%Re 1%Re) (mkVector3 1%Re 0%Re 0%Re) in
  let j_from_world :=
    mkRigid3d (mkQuaternion (3 / 5)%Re 0%Re 0%Re (4 / 5)%Re)
              (mkVector3 0%Re 1%Re 0%Re) in
  let world_from_w' :=
    mkRigid3d (mkQuaternion 0%Re 0%Re 1%Re 0%Re) (mkVector3 1%Re 2%Re 3%Re) in
  let prior := i_from_world in
  let i_from_w' := Rigid3d_mul i_from_world world_from_w' in
  let j_from_w' := Rigid3d_mul j_from_world world_from_w' in
  RelativePosePriorCostFunctor.call
    (RelativePosePriorCostFunctor.make prior ((4%Re)%:M)%R)
    (coeffs (rotation i_from_w')) (data (translation i_from_w'))
    (coeffs (rotation j_from_w')) (data (translation j_from_w'))
  = RelativePosePriorCostFunctor.call
      (RelativePosePriorCostFunctor.make prior ((4%Re)%:M)%R)
      (coeffs (rotation i_from_world)) (data (translation i_from_world))
      (coeffs (rotation j_from_world)) (data (translation j_from_world)).
Proof.
move=> i_from_world j_from_world world_from_w' prior i_from_w' j_from_w'.
apply: RelativePosePriorCostFunctor_world_frame.
- by rewrite /unit_norm /i_from_world; eigen_unfold; cbv [rotation]; lra.
- by rewrite /unit_norm /j_from_world; eigen_unfold; cbv [rotation]; lra.
- by rewrite /unit_norm /world_from_w'; eigen_unfold; cbv [rotation]; lra.
Defined.

Lemma vadd_vsub_vopp (x y z : Vector3 double) :
  vadd x (vsub y z) = vadd (vadd x (vopp z)) y.
Proof.
case: x y z => [x0 x1 x2] [y0 y1 y2] [z0 z1 z2].
by eigen_unfold; congr mkVector3; ring.
Qed.

(** X10. The relative-pose prior is the absolute-pose prior on the
    relative pose: for two poses with rotations of unit norm, the residual
    of [RelativePosePriorCostFunctor] is the residual that
    [AbsolutePosePriorCostFunctor], constructed with the same prior and
    covariance, gives at the pose [i_from_world * Inverse j_from_world]. *)
Theorem RelativePosePriorCostFunctor_as_absolute
    (i_from_world j_from_world i_from_j_prior : Rigid3d)
    (i_cov_from_j_prior : 'M[double]_6) :
  unit_norm (rotation i_from_world) ->
  unit_norm (rotation j_from_world) ->
  let i_from_j := Rigid3d_mul i_from_world (Inverse j_from_world) in
  RelativePosePriorCostFunctor.call
    (RelativePosePriorCostFunctor.make i_from_j_prior i_cov_from_j_prior)
    (coeffs (rotation i_from_world)) (data (translation i_from_world))
    (coeffs (rotation j_from_world)) (data (translation j_from_world))
  = AbsolutePosePriorCostFunctor.call
      (AbsolutePosePriorCostFunctor.make i_from_j_prior i_cov_from_j_prior)
      (coeffs (rotation i_from_j)) (data (translation i_from_j)).
Proof.
case: i_from_world j_from_world => [qi ti] [qj tj] unit_i unit_j i_from_j.
rewrite /= in unit_i unit_j; have unit_cj := unit_norm_conjugate unit_j.
rewrite /RelativePosePriorCostFunctor.call /RelativePosePriorCostFunctor.make.
rewrite /AbsolutePosePriorCostFunctor.call /AbsolutePosePriorCostFunctor.make.
cbv [RelativePosePriorCostFunctor.j_from_i_prior_
     RelativePosePriorCostFunctor.i_sqrt_info_from_j_prior_
     AbsolutePosePriorCostFunctor.world_from_cam_prior_
     AbsolutePosePriorCostFunctor.cam_sqrt_info_from_world_prior_].
move: (Inverse i_from_j_prior) => [qp tp].
rewrite /i_from_j /Rigid3d_mul /Inverse; cbv [rotation translation].
rewrite !EigenQuaternionMap_coeffs !EigenVector3Map_data.
rewrite (qinverse_unit unit_j) transformVector_vsub.
rewrite -(transformVector_qmul (vopp tj) unit_i unit_cj) transformVector_vopp.
by rewrite vadd_vsub_vopp.
Qed.

(** The poses with rotations (0, 0, 0, 1) and (3/5, 0, 0, 4/5) and
    translations (1, 0, 0) and (0, 1, 0), the prior with rotation
    (0, 0, 1, 0) and translation (1, 2, 3), and the covariance [4 I]. *)
Lemma RelativePosePriorCostFunctor_as_absolute_witness :
  let i_from_world :=
    mkRigid3d (mkQuaternion 0%Re 0%Re 0%Re 1%Re) (mkVector3 1%Re 0%Re 0%Re) in
  let j_from_world :=
    mkRigid3d (mkQuaternion (3 / 5)%Re 0%Re 0%Re (4 / 5)%Re)
              (mkVector3 0%Re 1%Re 0%Re) in
  let prior :=
    mkRigid3d (mkQuaternion 0%Re 0%Re 1%Re 0%Re) (mkVector3 1%Re 2%Re 3%Re) in
  let i_from_j := Rigid3d_mul i_from_world (Inverse j_from_world) in
  RelativePosePriorCostFunctor.call
    (RelativePosePriorCostFunctor.make prior ((4%Re)%:M)%R)
    (coeffs (rotation i_from_world)) (data (translation i_from_world))
    (coeffs (rotation j_from_world)) (data (translation j_from_world))
  = AbsolutePosePriorCostFunctor.call
      (AbsolutePosePriorCostFunctor.make prior ((4%Re)%:M)%R)
      (coeffs (rotation i_from_j)) (data (translation i_from_j)).
Proof.
move=> i_from_world j_from_world prior i_from_j.
apply: RelativePosePriorCostFunctor_as_absolute.
- by rewrite /unit_norm /i_from_world; eigen_unfold; cbv [rotation]; lra.
- by rewrite /unit_norm /j_from_world; eigen_unfold; cbv [rotation]; lra.
Defined.

End PosePriorResiduals.

Section PosePriorUniqueness.
Local Open Scope ring_scope.

Lemma atan_eq0 (x : R) : atan x = 0%Re -> x = 0%Re.
Proof. by move=> atan0; rewrite -(tan_atan x) atan0 tan_0. Qed.

Lemma size_EigenQuaternionToAngleAxis (q : seq double) :
  size (EigenQuaternionToAngleAxis q) = 3.
Proof.
by rewrite /EigenQuaternionToAngleAxis /QuaternionToAngleAxis; case: ifP.
Qed.

(** The logarithm vanishes only on the quaternions without vector part. *)
Lemma EigenQuaternionToAngleAxis_eq0 (q : Quaternion double) :
  EigenQuaternionToAngleAxis (coeffs q) = [:: 0%Re; 0%Re; 0%Re] ->
  [/\ qx q = 0%Re, qy q = 0%Re & qz q = 0%Re].
Proof.
case: q => x y z w /=.
rewrite /EigenQuaternionToAngleAxis /QuaternionToAngleAxis /coeffs.
rewrite /at_; eigen_unfold; cbv [nth sqrt atan2 lt].
set ss := (x * x + y * y + z * z)%Re.
case: (RltbP 0%Re ss) => [ss_gt0|/sum_squares3_eq0 [-> -> ->]] //.
have sn_gt0 := sqrt_lt_R0 _ ss_gt0; move: (R_sqrt.sqrt ss) sn_gt0 => sn sn_gt0.
set k := (_ / sn)%Re => -[xk yk zk].
suff k_neq0 : k <> 0%Re.
  by split; [move: xk|move: yk|move: zk] => /Rmult_integral [].
rewrite /k => /Rmult_integral [/Rmult_integral [|angle0]|]; first by lra.
  move: angle0; case: (RltbP w 0%Re) => [w_lt0|w_ge0].
    have w'_gt0 : Rltb 0 (- w) by apply/RltbP; lra.
    rewrite /Ratan2 w'_gt0 => /atan_eq0 /Rmult_integral [|inv0]; first by lra.
    by have := Rinv_neq_0_compat (- w)%Re; lra.
  rewrite /Ratan2; case: (RltbP 0%Re w) => [w_gt0|w_le0].
    move=> /atan_eq0 /Rmult_integral [|inv0]; first by lra.
    by have := Rinv_neq_0_compat w; lra.
  have /RltbP/negPf -> : ~ (w < 0)%Re by [].
  by move/RltbP: (sn_gt0) => ->; have := PI_RGT_0; lra.
by have := Rinv_neq_0_compat sn; lra.
Qed.

Lemma qmul_conjugateKV (q p : Quaternion double) :
  unit_norm p -> qmul (qmul q (conjugate p)) p = q.
Proof.
case: q p => [x y z w] [x' y' z' w'] /unit_norm_ww Hw.
by eigen_unfold; congr mkQuaternion; ring [Hw].
Qed.

Lemma qmul_scalar (w : R) (p : Quaternion double) :
  (w * w = 1)%Re ->
  qmul (mkQuaternion 0%Re 0%Re 0%Re w) p = p \/
  qmul (mkQuaternion 0%Re 0%Re 0%Re w) p = qopp p.
Proof.
move=> ww; have [->|->] : w = 1%Re \/ w = (- 1)%Re.
- have -> : w = 1%Re \/ w = (- 1)%Re <-> ((w - 1) * (w + 1) = 0)%Re.
    split=> [[->|->]|/Rmult_integral []]; [ring|ring|left|right]; lra.
  have -> : ((w - 1) * (w + 1) = w * w - 1)%Re by ring.
  by rewrite ww; lra.
- by left; case: p => x y z w'; eigen_unfold; congr mkQuaternion; ring.
- by right; case: p => x y z w'; rewrite /qopp; eigen_unfold;
     congr mkQuaternion; ring.
Qed.

Lemma vadd_vopp_eq0 (x y : Vector3 double) :
  vadd x (vopp y) = mkVector3 0%Re 0%Re 0%Re <-> x = y.
Proof.
case: x y => [x0 x1 x2] [y0 y1 y2]; eigen_unfold.
split=> [[e0 e1 e2]|[-> -> ->]]; congr mkVector3; lra.
Qed.

Lemma cat3_eq0 (r : seq R) (x : Vector3 double) :
  size r = 3 -> r ++ data x = nseq 6 0%Re ->
  r = [:: 0%Re; 0%Re; 0%Re] /\ x = mkVector3 0%Re 0%Re 0%Re.
Proof.
case: x r => [x0 x1 x2] [|a [|b [|c []]]] //= _.
by move=> [-> -> -> -> -> ->].
Qed.

(** X11. The absolute-pose prior vanishes only at the prior: for a prior
    pose and a pose with rotations of unit norm and a symmetric
    positive-definite covariance, the residual is the zero 6-vector if and
    only if the translation is the one of the prior and the rotation
    quaternion is the one of the prior or its opposite, which stands for
    the same rotation. *)
Theorem AbsolutePosePriorCostFunctor_zero_iff
    (cam_from_world_prior : Rigid3d) (cam_cov_from_world_prior : 'M[double]_6)
    (q : Quaternion double) (t : Vector3 double) :
  unit_norm (rotation cam_from_world_prior) -> unit_norm q ->
  spd cam_cov_from_world_prior ->
  AbsolutePosePriorCostFunctor.call
    (AbsolutePosePriorCostFunctor.make cam_from_world_prior
                                       cam_cov_from_world_prior)
    (coeffs q) (data t)
  = (true, nseq 6 0%Re)
  <->
  (q = rotation cam_from_world_prior \/
   q = qopp (rotation cam_from_world_prior)) /\
  t = translation cam_from_world_prior.
Proof.
case: cam_from_world_prior => p tp /= unit_p unit_q spdC.
have unit_cp := unit_norm_conjugate unit_p.
rewrite /AbsolutePosePriorCostFunctor.call /AbsolutePosePriorCostFunctor.make.
rewrite /Inverse.
cbv [AbsolutePosePriorCostFunctor.world_from_cam_prior_
     AbsolutePosePriorCostFunctor.cam_sqrt_info_from_world_prior_
     rotation translation].
rewrite EigenQuaternionMap_coeffs EigenVector3Map_data qcast_double.
rewrite vcast_double (qinverse_unit unit_p) transformVector_vopp.
set rot := EigenQuaternionToAngleAxis _; set tr := vadd _ _.
have size_raw : size (rot ++ data tr) = 6.
  by rewrite size_cat size_EigenQuaternionToAngleAxis.
have trE q' : q' = p \/ q' = qopp p ->
    vadd t (vopp (transformVector q' (transformVector (conjugate p) tp)))
    = vadd t (vopp tp).
  by case=> ->; rewrite ?transformVector_qopp transformVector_conjugateKV.
split=> [[] /(whitened_eq0 spdC size_raw) raw0|[q_prior t_prior]]; last first.
  congr (_, _); apply/(whitened_eq0 spdC size_raw).
  have -> : tr = mkVector3 0%Re 0%Re 0%Re.
    by rewrite /tr transformVector_vopp trE //; apply/vadd_vopp_eq0.
  rewrite /rot; case: q_prior => ->.
    by rewrite qmul_conjugate_unit // EigenQuaternionToAngleAxis_scalar.
  rewrite qmul_qopp qmul_conjugate_unit // /qopp /=.
  have -> : (- 0)%Re = 0%Re by ring.
  by rewrite EigenQuaternionToAngleAxis_scalar.
have [rot0 tr0] := cat3_eq0 (size_EigenQuaternionToAngleAxis _) raw0.
have q_prior : q = p \/ q = qopp p.
  have unit_r := unit_norm_qmul unit_q unit_cp.
  have := qmul_conjugateKV q unit_p.
  move: rot0 unit_r; rewrite /rot; case: (qmul q _) => x y z w.
  move=> /EigenQuaternionToAngleAxis_eq0 /= [-> -> ->] /unit_norm_ww.
  have -> : (1 - 0 * 0 - 0 * 0 - 0 * 0 = 1)%Re by ring.
  by move=> /(qmul_scalar p) [->|->] <-; [left|right].
split=> //; apply/vadd_vopp_eq0.
by rewrite -(trE q) // -transformVector_vopp.
Qed.

(** The prior pose with rotation (3/5, 0, 0, 4/5) and translation
    (1, 2, 3), met with the opposite quaternion; the covariance [4 I]. *)
Lemma AbsolutePosePriorCostFunctor_zero_iff_witness :
  let prior :=
    mkRigid3d (mkQuaternion (3 / 5)%Re 0%Re 0%Re (4 / 5)%Re)
              (mkVector3 1%Re 2%Re 3%Re) in
  AbsolutePosePriorCostFunctor.call
    (AbsolutePosePriorCostFunctor.make prior ((4%Re)%:M))
    (coeffs (qopp (rotation prior))) (data (translation prior))
  = (true, nseq 6 0%Re).
Proof.
move=> prior.
have unit_prior : unit_norm (rotation prior).
  by rewrite /unit_norm /prior; eigen_unfold; cbv [rotation]; lra.
apply/AbsolutePosePriorCostFunctor_zero_iff => //; last by split; [right|].
- by rewrite /unit_norm /prior /qopp; eigen_unfold; cbv [rotation]; lra.
- by apply: spd_scalar_mx; lra.
Defined.

End PosePriorUniqueness.

(** ** Reprojection through a rig, and with a fixed point *)

Section RigReprojection.

(** A point taken into the frame of the rig and then into the frame of the
    camera is the point taken into the frame of the camera by the composed
    pose. *)
Lemma rig_point3D_in_cam (qc qr : Quaternion double)
    (tc tr X : Vector3 double) :
  unit_norm qc -> unit_norm qr ->
  vadd (transformVector qc (vadd (transformVector qr X) tr)) tc
  = vadd (transformVector (qmul qc qr) X) (vadd tc (transformVector qc tr)).
Proof.
move=> unit_c unit_r; rewrite transformVector_vadd transformVector_qmul //.
move: (transformVector qc _) (transformVector qc tr) => [x0 x1 x2] [y0 y1 y2].
by case: tc => z0 z1 z2; eigen_unfold; congr mkVector3; ring.
Qed.

(** X12. Reprojection through a rig is reprojection by the composed pose:
    for rotations of unit norm, the residual of [RigReprojErrorCostFunctor]
    at the poses [cam_from_rig] and [rig_from_world] is the residual of
    [ReprojErrorCostFunctor] at the pose [cam_from_rig * rig_from_world],
    for the same point, camera parameters and observation. *)
Theorem RigReprojErrorCostFunctor_composes (CM : CameraModel)
    (point2D : Vector2 double) (cam_from_rig rig_from_world : Rigid3d)
    (point3D camera_params : seq double) :
  unit_norm (rotation cam_from_rig) -> unit_norm (rotation rig_from_world) ->
  let cam_from_world := Rigid3d_mul cam_from_rig rig_from_world in
  RigReprojErrorCostFunctor.call CM (RigReprojErrorCostFunctor.make point2D)
    (coeffs (rotation cam_from_rig)) (data (translation cam_from_rig))
    (coeffs (rotation rig_from_world)) (data (translation rig_from_world))
    point3D camera_params
  = ReprojErrorCostFunctor.call CM (ReprojErrorCostFunctor.make point2D)
      (coeffs (rotation cam_from_world)) (data (translation cam_from_world))
      point3D camera_params.
Proof.
case: cam_from_rig rig_from_world => [qc tc] [qr tr] /= unit_c unit_r.
rewrite /RigReprojErrorCostFunctor.call /ReprojErrorCostFunctor.call.
rewrite !EigenQuaternionMap_coeffs !EigenVector3Map_data.
by rewrite rig_point3D_in_cam.
Qed.

(** The camera turned by (0, 0, 1, 0) and moved by (0, 0, 1) within a rig
    turned by (3/5, 0, 0, 4/5) and moved by (1, 2, 3); the point
    (1, 1, 5) and the pinhole model of focal length 2. *)
Lemma RigReprojErrorCostFunctor_composes_witness :
  let cam_from_rig :=
    mkRigid3d (mkQuaternion 0%Re 0%Re 1%Re 0%Re) (mkVector3 0%Re 0%Re 1%Re) in
  let rig_from_world :=
    mkRigid3d (mkQuaternion (3 / 5)%Re 0%Re 0%Re (4 / 5)%Re)
              (mkVector3 1%Re 2%Re 3%Re) in
  let cam_from_world := Rigid3d_mul cam_from_rig rig_from_world in
  let point2D := mkVector2 0%Re 1%Re in
  let point3D := [:: 1%Re; 1%Re; 5%Re] in
  let camera_params := [:: 2%Re; 0%Re; 0%Re] in
  RigReprojErrorCostFunctor.call SimplePinholeCameraModel
    (RigReprojErrorCostFunctor.make point2D)
    (coeffs (rotation cam_from_rig)) (data (translation cam_from_rig))
    (coeffs (rotation rig_from_world)) (data (translation rig_from_world))
    point3D camera_params
  = ReprojErrorCostFunctor.call SimplePinholeCameraModel
      (ReprojErrorCostFunctor.make point2D)
      (coeffs (rotation cam_from_world)) (data (translation cam_from_world))
      point3D camera_params.
Proof.
move=> cam_from_rig rig_from_world cam_from_world point2D point3D camera_params.
apply: RigReprojErrorCostFunctor_composes.
- by rewrite /unit_norm /cam_from_rig; eigen_unfold; cbv [rotation]; lra.
- by rewrite /unit_norm /rig_from_world; eigen_unfold; cbv [rotation]; lra.
Defined.

(** X13. The rig functor with fixed extrinsics is reprojection by the
    composed pose: constructed with the pose [cam_from_rig] of the camera
    within the rig and evaluated at the pose [rig_from_world], both with
    rotations of unit norm, [RigReprojErrorConstantRigCostFunctor] gives the
    residual of [ReprojErrorCostFunctor] at the pose
    [cam_from_rig * rig_from_world]. *)
Theorem RigReprojErrorConstantRigCostFunctor_composes (CM : CameraModel)
    (point2D : Vector2 double) (cam_from_rig rig_from_world : Rigid3d)
    (point3D camera_params : seq double) :
  unit_norm (rotation cam_from_rig) -> unit_norm (rotation rig_from_world) ->
  let cam_from_world := Rigid3d_mul cam_from_rig rig_from_world in
  RigReprojErrorConstantRigCostFunctor.call CM
    (RigReprojErrorConstantRigCostFunctor.make cam_from_rig point2D)
    (coeffs (rotation rig_from_world)) (data (translation rig_from_world))
    point3D camera_params
  = ReprojErrorCostFunctor.call CM (ReprojErrorCostFunctor.make point2D)
      (coeffs (rotation cam_from_world)) (data (translation cam_from_world))
      point3D camera_params.
Proof.
case: cam_from_rig rig_from_world => [qc tc] [qr tr] /= unit_c unit_r.
rewrite /RigReprojErrorConstantRigCostFunctor.call.
rewrite /RigReprojErrorConstantRigCostFunctor.make.
cbv [RigReprojErrorConstantRigCostFunctor.cam_from_rig_
     RigReprojErrorConstantRigCostFunctor.reproj_cost_ rotation translation].
rewrite /RigReprojErrorCostFunctor.call /ReprojErrorCostFunctor.call.
rewrite qcast_double vcast_double.
rewrite !EigenQuaternionMap_coeffs !EigenVector3Map_data.
by rewrite rig_point3D_in_cam.
Qed.

(** The same rig, camera, point and camera model. *)
Lemma RigReprojErrorConstantRigCostFunctor_composes_witness :
  let cam_from_rig :=
    mkRigid3d (mkQuaternion 0%Re 0%Re 1%Re 0%Re) (mkVector3 0%Re 0%Re 1%Re) in
  let rig_from_world :=
    mkRigid3d (mkQuaternion (3 / 5)%Re 0%Re 0%Re (4 / 5)%Re)
              (mkVector3 1%Re 2%Re 3%Re) in
  let cam_from_world := Rigid3d_mul cam_from_rig rig_from_world in
  let point2D := mkVector2 0%Re 1%Re in
  let point3D := [:: 1%Re; 1%Re; 5%Re] in
  let camera_params := [:: 2%Re; 0%Re; 0%Re] in
  RigReprojErrorConstantRigCostFunctor.call SimplePinholeCameraModel
    (RigReprojErrorConstantRigCostFunctor.make cam_from_rig point2D)
    (coeffs (rotation rig_from_world)) (data (translation rig_from_world))
    point3D camera_params
  = ReprojErrorCostFunctor.call SimplePinholeCameraModel
      (ReprojErrorCostFunctor.make point2D)
      (coeffs (rotation cam_from_world)) (data (translation cam_from_world))
      point3D camera_params.
Proof.
move=> cam_from_rig rig_from_world cam_from_world point2D point3D camera_params.
apply: RigReprojErrorConstantRigCostFunctor_composes.
- by rewrite /unit_norm /cam_from_rig; eigen_unfold; cbv [rotation]; lra.
- by rewrite /unit_norm /rig_from_world; eigen_unfold; cbv [rotation]; lra.
Defined.

(** X14. Reprojection of a fixed point: the residual of
    [ReprojErrorConstantPoint3DCostFunctor], constructed with the point [X],
    is the projection by the camera model of [R X + t], where [R] is the
    rotation matrix of the pose, minus the observed pixel; it is the
    residual of the free-pose functor evaluated at the point [X]. *)
Theorem ReprojErrorConstantPoint3DCostFunctor_residual (CM : CameraModel)
    (point2D : Vector2 double) (X : Vector3 double)
    (cam_from_world_rotation cam_from_world_translation
       camera_params : seq double) :
  let R := toRotationMatrix (EigenQuaternionMap cam_from_world_rotation) in
  let p := vadd (mulmv R X) (EigenVector3Map cam_from_world_translation) in
  let predicted :=
    ImgFromCam CM double_Scalar camera_params (v0 p) (v1 p) (v2 p) in
  let residual :=
    ReprojErrorConstantPoint3DCostFunctor.call CM
      (ReprojErrorConstantPoint3DCostFunctor.make point2D X)
      cam_from_world_rotation cam_from_world_translation camera_params in
  residual = (true, [:: (predicted.1 - u0 point2D)%Re;
                        (predicted.2 - u1 point2D)%Re]) /\
  residual = ReprojErrorCostFunctor.call CM
               (ReprojErrorCostFunctor.make point2D)
               cam_from_world_rotation cam_from_world_translation (data X)
               camera_params.
Proof.
move=> R p predicted residual.
have -> : residual = ReprojErrorCostFunctor.call CM
                       (ReprojErrorCostFunctor.make point2D)
                       cam_from_world_rotation cam_from_world_translation
                       (data X) camera_params.
  rewrite /residual /ReprojErrorConstantPoint3DCostFunctor.call.
  rewrite /ReprojErrorConstantPoint3DCostFunctor.make.
  cbv [ReprojErrorConstantPoint3DCostFunctor.point3D_
       ReprojErrorConstantPoint3DCostFunctor.reproj_cost_].
  by rewrite vcast_double.
split=> //; rewrite /ReprojErrorCostFunctor.call EigenVector3Map_data.
by rewrite transformVector_toRotationMatrix.
Qed.

End RigReprojection.

(** ** The Sampson error of exact and of rescaled geometry *)

Section SampsonGeometry.

Lemma transformVector_vscale (q : Quaternion double) (c : R)
    (x : Vector3 double) :
  transformVector q (vscale c x) = vscale c (transformVector q x).
Proof.
case: q x => [x y z w] [x0 x1 x2].
by eigen_unfold; congr mkVector3; ring.
Qed.

Lemma homogeneous_normalized (X : Vector3 double) :
  v2 X <> 0%Re ->
  homogeneous (normalized_image_point X) = vscale (/ v2 X)%Re X.
Proof.
case: X => X0 X1 X2 /= X2_neq0; rewrite /homogeneous /normalized_image_point.
by eigen_unfold; congr mkVector3; field.
Qed.

Lemma dot_cross_exact (a b : R) (t u : Vector3 double) :
  dot (vscale a (vadd u t)) (cross t (vscale b u)) = 0%Re.
Proof. by case: t u => [t0 t1 t2] [u0 u1 u2]; eigen_unfold; ring. Qed.

(** The residual in the vocabulary of the essential matrix. *)
Lemma SampsonErrorCostFunctor_callE (x1 x2 : Vector2 double)
    (q : Quaternion double) (t : Vector3 double) :
  SampsonErrorCostFunctor.call (SampsonErrorCostFunctor.make x1 x2)
    (coeffs q) (data t)
  = (true, [:: (epipolar_constraint (essential_matrix q t) x1 x2 *
                epipolar_constraint (essential_matrix q t) x1 x2 /
                sampson_denominator (essential_matrix q t) x1 x2)%Re]).
Proof. by case: q t => [x y z w] [t0 t1 t2]. Qed.

(** X15. The Sampson error of an exact correspondence is zero: when the
    two image points are the images, in normalised coordinates, of one
    point [X] in front of the first camera and of [q * X + t] in the frame
    of the second, the residual at the relative pose [(q, t)] is zero
    (where its denominator is not). *)
Theorem SampsonErrorCostFunctor_exact_correspondence
    (q : Quaternion double) (t X : Vector3 double) :
  v2 X <> 0%Re -> v2 (vadd (transformVector q X) t) <> 0%Re ->
  sampson_denominator (essential_matrix q t) (normalized_image_point X)
    (normalized_image_point (vadd (transformVector q X) t)) <> 0%Re ->
  SampsonErrorCostFunctor.call
    (SampsonErrorCostFunctor.make
       (normalized_image_point X)
       (normalized_image_point (vadd (transformVector q X) t)))
    (coeffs q) (data t)
  = (true, [:: 0%Re]).
Proof.
move=> Z_neq0 Z'_neq0; set x1 := normalized_image_point X.
set x2 := normalized_image_point _ => d_neq0.
rewrite SampsonErrorCostFunctor_callE.
have -> : epipolar_constraint (essential_matrix q t) x1 x2 = 0%Re.
  rewrite /epipolar_constraint essential_matrix_cross /x1 /x2.
  by rewrite !homogeneous_normalized // transformVector_vscale dot_cross_exact.
by congr (_, [:: _]); field.
Qed.

(** The point (0, 0, 1) seen by a second camera moved by (1, 0, 0). *)
Lemma SampsonErrorCostFunctor_exact_correspondence_witness :
  let q := mkQuaternion 0%Re 0%Re 0%Re 1%Re in
  let t := mkVector3 1%Re 0%Re 0%Re in
  let X := mkVector3 0%Re 0%Re 1%Re in
  SampsonErrorCostFunctor.call
    (SampsonErrorCostFunctor.make
       (normalized_image_point X)
       (normalized_image_point (vadd (transformVector q X) t)))
    (coeffs q) (data t)
  = (true, [:: 0%Re]).
Proof.
move=> q t X.
have X'E : vadd (transformVector q X) t = mkVector3 1%Re 0%Re 1%Re.
  by rewrite /q /t /X; eigen_unfold; congr mkVector3; ring.
have x1E : normalized_image_point X = mkVector2 0%Re 0%Re.
  by rewrite /normalized_image_point /X /=; congr mkVector2; field.
have x2E : normalized_image_point (mkVector3 1%Re 0%Re 1%Re)
           = mkVector2 1%Re 0%Re.
  by rewrite /normalized_image_point /=; congr mkVector2; field.
apply: SampsonErrorCostFunctor_exact_correspondence; rewrite ?X'E ?x1E ?x2E.
- by rewrite /=; lra.
- by rewrite /=; lra.
- rewrite /sampson_denominator /essential_matrix /skew /homogeneous /q /t.
  by eigen_unfold; lra.
Defined.

Lemma epipolar_constraint_scale (q : Quaternion double) (t : Vector3 double)
    (x1 x2 : Vector2 double) (lambda : R) :
  epipolar_constraint (essential_matrix q (vscale lambda t)) x1 x2
  = (lambda * epipolar_constraint (essential_matrix q t) x1 x2)%Re.
Proof.
case: q t x1 x2 => [x y z w] [t0 t1 t2] [a1 b1] [a2 b2].
rewrite /epipolar_constraint /essential_matrix /skew /homogeneous.
by eigen_unfold; ring.
Qed.

Lemma sampson_denominator_scale (q : Quaternion double) (t : Vector3 double)
    (x1 x2 : Vector2 double) (lambda : R) :
  sampson_denominator (essential_matrix q (vscale lambda t)) x1 x2
  = (lambda * lambda * sampson_denominator (essential_matrix q t) x1 x2)%Re.
Proof.
case: q t x1 x2 => [x y z w] [t0 t1 t2] [a1 b1] [a2 b2].
rewrite /sampson_denominator /essential_matrix /skew /homogeneous.
by eigen_unfold; ring.
Qed.

(** X16. The Sampson error does not see the length of the translation:
    multiplying the translation by a factor that is not zero leaves the
    residual unchanged (where its denominator is not zero), which is why
    the translation is over-parameterised by its three coordinates. *)
Theorem SampsonErrorCostFunctor_translation_scale (x1 x2 : Vector2 double)
    (q : Quaternion double) (t : Vector3 double) (lambda : double) :
  lambda <> 0%Re ->
  sampson_denominator (essential_matrix q t) x1 x2 <> 0%Re ->
  SampsonErrorCostFunctor.call (SampsonErrorCostFunctor.make x1 x2)
    (coeffs q) (data (vscale lambda t))
  = SampsonErrorCostFunctor.call (SampsonErrorCostFunctor.make x1 x2)
      (coeffs q) (data t).
Proof.
move=> lambda_neq0 d_neq0; rewrite !SampsonErrorCostFunctor_callE.
rewrite epipolar_constraint_scale sampson_denominator_scale.
by congr (_, [:: _]); field.
Qed.

(** Identity rotation, translation (1, 0, 0) multiplied by 3, and the
    image points (0, 1) and (0, 2). *)
Lemma SampsonErrorCostFunctor_translation_scale_witness :
  let x1 := mkVector2 0%Re 1%Re in
  let x2 := mkVector2 0%Re 2%Re in
  let q := mkQuaternion 0%Re 0%Re 0%Re 1%Re in
  let t := mkVector3 1%Re 0%Re 0%Re in
  SampsonErrorCostFunctor.call (SampsonErrorCostFunctor.make x1 x2)
    (coeffs q) (data (vscale 3%Re t))
  = SampsonErrorCostFunctor.call (SampsonErrorCostFunctor.make x1 x2)
      (coeffs q) (data t).
Proof.
move=> x1 x2 q t; apply: SampsonErrorCostFunctor_translation_scale; first lra.
rewrite /sampson_denominator /essential_matrix /skew /homogeneous /q /t /x1 /x2.
by eigen_unfold; lra.
Defined.

Lemma sampson_denominator_ge0 (E : Matrix3 double) (x1 x2 : Vector2 double) :
  (0 <= sampson_denominator E x1 x2)%Re.
Proof.
rewrite /sampson_denominator; cbv zeta.
move: (mulmv E _) (mulmv (transpose3 E) _) => [e0 e1 _] [e2 e3 _] /=.
have := Rle_0_sqr e0; have := Rle_0_sqr e1; have := Rle_0_sqr e2.
by have := Rle_0_sqr e3; rewrite /Rsqr; lra.
Qed.

(** X17. The Sampson residual is a squared error: where its denominator is
    not zero it is not negative, and it is zero only if the epipolar
    constraint [x2^T E x1 = 0] holds. *)
Theorem SampsonErrorCostFunctor_squared_error (x1 x2 : Vector2 double)
    (q : Quaternion double) (t : Vector3 double) :
  sampson_denominator (essential_matrix q t) x1 x2 <> 0%Re ->
  exists2 e : double,
    SampsonErrorCostFunctor.call (SampsonErrorCostFunctor.make x1 x2)
      (coeffs q) (data t) = (true, [:: e])
    & (0 <= e)%Re /\
      (e = 0%Re <-> epipolar_constraint (essential_matrix q t) x1 x2 = 0%Re).
Proof.
move=> d_neq0; rewrite SampsonErrorCostFunctor_callE; eexists; first by [].
have := sampson_denominator_ge0 (essential_matrix q t) x1 x2.
move: (sampson_denominator _ _ _) (epipolar_constraint _ _ _) d_neq0.
move=> den ec den_neq0 den_ge0.
have den_gt0 : (0 < den)%Re by lra.
have inv_gt0 : (0 < / den)%Re by apply: Rinv_0_lt_compat.
have ec2 := Rle_0_sqr ec; rewrite /Rsqr in ec2.
split; first by apply: Rmult_le_pos => //; lra.
split=> [/Rmult_integral [/Rmult_integral []|] //|->]; last by field.
by lra.
Qed.

(** Identity rotation, translation (1, 0, 0), and the image points (0, 1)
    and (0, 2): the denominator is 2. *)
Lemma SampsonErrorCostFunctor_squared_error_witness :
  let x1 := mkVector2 0%Re 1%Re in
  let x2 := mkVector2 0%Re 2%Re in
  let q := mkQuaternion 0%Re 0%Re 0%Re 1%Re in
  let t := mkVector3 1%Re 0%Re 0%Re in
  exists2 e : double,
    SampsonErrorCostFunctor.call (SampsonErrorCostFunctor.make x1 x2)
      (coeffs q) (data t) = (true, [:: e])
    & (0 <= e)%Re /\
      (e = 0%Re <-> epipolar_constraint (essential_matrix q t) x1 x2 = 0%Re).
Proof.
move=> x1 x2 q t; apply: SampsonErrorCostFunctor_squared_error.
rewrite /sampson_denominator /essential_matrix /skew /homogeneous /q /t /x1 /x2.
by eigen_unfold; lra.
Defined.

End SampsonGeometry.

(** ** The isotropic-noise wrapper, applied twice *)

Section IsotropicNoiseWrapper.
Import IsotropicNoiseCostFunctorWrapper.
Variables (Args : Type) (CostFunctor_Create : Args -> CostFunction).

(** X19. Wrapping twice scales cumulatively: for [stddev1 > 0] and
    [stddev2 > 0], the handle of the wrapper with [stddev2] can be wrapped
    again with [stddev1], and where the innermost cost function evaluates
    successfully every residual and every Jacobian entry of the outer
    handle is the innermost one multiplied by [1 / (stddev1 stddev2)]. *)
Theorem IsotropicNoiseCostFunctorWrapper_twice (stddev1 stddev2 : double)
    (args : Args) (parameters : seq (seq double)) :
  (0 < stddev1)%Re -> (0 < stddev2)%Re ->
  let wrapped := CostFunctor_Create args in
  let out := Evaluate wrapped parameters in
  exists h2 h,
    [/\ Create CostFunctor_Create stddev2 args = Returns h2,
        Create (fun _ : unit => h2) stddev1 tt = Returns h
      & success out ->
        entrywise (fun x x' => x' = (x * (1 / (stddev1 * stddev2)))%Re)
                  wrapped out (Evaluate h parameters)].
Proof.
move=> gt1 gt2 wrapped out.
rewrite /Create /THROW_CHECK_GT; move/RltbP: (gt1) => ->.
move/RltbP: (gt2) => ->; rewrite -/wrapped.
do 2!eexists; split; [reflexivity|reflexivity|move=> out_ok].
have [] := condition_loop_spec (parameter_block_sizes wrapped)
             (1 / stddev2)%Re out_ok (leqnn (num_residuals wrapped)).
set out2 := foldl _ _ _ => out2_ok res2 jac2.
have [] := condition_loop_spec (parameter_block_sizes wrapped)
             (1 / stddev1)%Re out2_ok (leqnn (num_residuals wrapped)).
set out1 := foldl _ _ _ => out1_ok res1 jac1.
set out' := Evaluate (ConditionedCostFunction _ _) _.
have -> : out' = out1 by [].
split=> [|r lt_r|i idx lt_i lt_idx]; first by rewrite out1_ok out_ok.
  by rewrite res1 res2 lt_r; field; lra.
by rewrite jac1 // jac2 // lt_idx; field; lra.
Qed.

End IsotropicNoiseWrapper.

(** The Sampson cost function of the image points (0, 1) and (0, 2), at
    the identity rotation and the translation (1, 0, 0), wrapped with the
    standard deviation 3 and then with the standard deviation 2: the
    residual 1/2 becomes 1/12 and the derivative 7 becomes 7/6. *)
Lemma IsotropicNoiseCostFunctorWrapper_twice_witness :
  let x1 : Vector2 double := mkVector2 0%Re 1%Re in
  let x2 : Vector2 double := mkVector2 0%Re 2%Re in
  let create (xs : Vector2 double * Vector2 double) :=
    SampsonErrorCostFunctor.Create xs.1 xs.2 in
  let parameters := [:: [:: 0%Re; 0%Re; 0%Re; 1%Re]; [:: 1%Re; 0%Re; 0%Re]] in
  let out := Evaluate (create (x1, x2)) parameters in
  exists h2 h,
    [/\ IsotropicNoiseCostFunctorWrapper.Create create 3%Re (x1, x2)
        = Returns h2,
        IsotropicNoiseCostFunctorWrapper.Create (fun _ : unit => h2) 2%Re tt
        = Returns h
      & entrywise (fun r r' => r' = (r * (1 / (2 * 3)))%Re) (create (x1, x2))
          out (Evaluate h parameters)] /\
    [/\ residuals out = [:: (1 / 2)%Re],
        jacobians out
        = [:: [:: 7%Re; 0%Re; 0%Re; 0%Re]; [:: 0%Re; 0%Re; 0%Re]],
        nth 0%Re (residuals (Evaluate h parameters)) 0 = (1 / 12)%Re
      & nth 0%Re (nth [::] (jacobians (Evaluate h parameters)) 0) 0
        = (7 / 6)%Re].
Proof.
move=> x1 x2 create parameters out.
have [out_ok res jac] := SampsonErrorCostFunctor_Create_example.
have gt1 : (0 < 2)%Re by lra.
have gt2 : (0 < 3)%Re by lra.
have [h2 [h [h2E hE scaled]]] :=
  IsotropicNoiseCostFunctorWrapper_twice create (x1, x2) parameters gt1 gt2.
exists h2, h; have entry := scaled out_ok; have [_ res' jac'] := entry.
do 2![split=> //]; first by rewrite res' // [residuals _]res /=; field.
by rewrite (jac' 0 0) // [jacobians _]jac /=; field.
Defined.

(** ** Isotropic noise as a scaled covariance *)

Section WrapperAsCovariance.
Import IsotropicNoiseCostFunctorWrapper.
Local Open Scope ring_scope.
Import GRing.Theory.

Lemma applyOnTheLeft_scale n (c : R) (M : 'M[R]_n) (r : seq R) i :
  nth 0%Re (applyOnTheLeft (c *: M) r) i
  = (c * nth 0%Re (applyOnTheLeft M r) i)%Re.
Proof.
case: (ltnP i n) => [lt_i|ge_i]; last first.
  by rewrite !nth_default ?size_applyOnTheLeft // Rmult_0_r.
rewrite !(applyOnTheLeft_mulmx _ _ (Ordinal lt_i)) /=.
by rewrite -scalemxAl scalemx_entry.
Qed.

(** The derivatives of whitened jets are the whitened derivatives, and so
    are linear in the matrix. *)
Lemma applyOnTheLeft_scale_jet n (c : R) (M : 'M[R]_n) (r : seq Jet) i k :
  v (nth (cast 0%Re) (applyOnTheLeft (c *: M) r) i) k
  = (c * v (nth (cast 0%Re) (applyOnTheLeft M r) i) k)%Re.
Proof.
case: (ltnP i n) => [lt_i|ge_i]; last first.
  by rewrite !nth_default ?size_applyOnTheLeft //= Rmult_0_r.
have lt_i' : i < size (enum 'I_n) by rewrite size_enum_ord.
rewrite /applyOnTheLeft (nth_map (Ordinal lt_i)); first exact: lt_i'.
rewrite (nth_map (Ordinal lt_i)); first exact: lt_i'.
move: (nth _ _ _) => io.
pose K (x y : Jet) := v x k = (c * v y k)%Re.
apply: (big_rec2 K) => [|j x y _]; rewrite /K /=; first by rewrite Rmult_0_r.
by move=> ->; rewrite mxE; to_R; ring.
Qed.

Lemma jacobians_of_rel (rel : R -> R -> Prop) N (dims : seq nat)
    (out out' : seq Jet) :
  (forall row k, rel (v (nth (cast 0%Re) out row) k)
                     (v (nth (cast 0%Re) out' row) k)) ->
  forall offset i idx, i < size dims -> idx < N * nth 0 dims i ->
    rel (nth 0%Re (nth [::] (jacobians_of N offset dims out) i) idx)
        (nth 0%Re (nth [::] (jacobians_of N offset dims out') i) idx).
Proof.
move=> rel_out; elim: dims => [|d dims IHdims] offset [|i] idx //=.
  by move=> _ lt_idx; rewrite !nth_mkseq.
by move=> lt_i lt_idx; apply: IHdims.
Qed.

Variables (n : nat) (dims : seq nat) (F : 'M[double]_n -> CostFunctorCall).

Hypothesis F_whitens :
  exists raw : forall T : Type, Scalar T -> seq (seq T) -> seq T,
    forall C (T : Type) (ST : Scalar T) p,
      F C ST p = (true, applyOnTheLeft (SqrtInformation C) (raw T ST p)).

(** A cost function that whitens with the square-root information of a
    covariance [C], conditioned by the scale [1 / sigma], is the cost
    function that whitens with the square-root information of
    [sigma^2 C]. *)
Lemma conditioned_as_scaled_covariance (C : 'M[double]_n) (sigma : double)
    (parameters : seq (seq double)) :
  spd C -> (0 < sigma)%Re ->
  let h := AutoDiffCostFunction (F C) n dims in
  entrywise (fun x x' => x' = x) h
    (Evaluate (AutoDiffCostFunction (F ((sigma * sigma)%Re *: C)) n dims)
              parameters)
    (Evaluate (ConditionedCostFunction h
                 (nseq n (Some (LinearCostFunction (1 / sigma)%Re))))
              parameters).
Proof.
case: F_whitens => raw FE spdC sigma_gt0 h.
have out_ok : success (Evaluate h parameters) by rewrite /= FE.
have [] := condition_loop_spec dims (1 / sigma)%Re out_ok (leqnn n).
set out' := foldl _ _ _ => out'_ok res' jac'.
set out'' := Evaluate (ConditionedCostFunction _ _) _.
have -> : out'' = out' by [].
split=> [|r lt_r|i idx lt_i lt_idx]; first by rewrite out'_ok /= FE.
  rewrite res' lt_r /= !FE /= SqrtInformation_scale // applyOnTheLeft_scale.
  by field; lra.
rewrite jac' // lt_idx /= !FE /= SqrtInformation_scale //.
apply: (@jacobians_of_rel (fun x y => (x * (1 / sigma))%Re = y)) => // row k.
by rewrite applyOnTheLeft_scale_jet; field; lra.
Qed.

End WrapperAsCovariance.

Section WhitenedHandles.
Local Open Scope ring_scope.

Ltac whitened_handle functor :=
  rewrite /isotropic_noise_scales_covariance
          /IsotropicNoiseCostFunctorWrapper.Create /THROW_CHECK_GT;
  match goal with
  | sigma_gt0 : (0 < ?sigma)%Re |- _ => move/RltbP: (sigma_gt0) => ->
  end;
  eexists; first reflexivity;
  apply: (@conditioned_as_scaled_covariance _ _ functor) => //.

(** X20. Isotropic noise on top of a covariance is a scaled covariance:
    for each of the four whitened cost functions (absolute pose, camera
    position, relative pose, point alignment), every symmetric
    positive-definite covariance [C] and every [sigma > 0], the
    isotropic-noise wrapper with the standard deviation [sigma] around the
    cost function created with [C] evaluates, at all parameters, to the
    residuals and the Jacobians of the cost function created with
    [sigma^2 C]. *)
Theorem IsotropicNoiseCostFunctorWrapper_scales_covariance (sigma : double)
    (C3 : 'M[double]_3) (C6 : 'M[double]_6) (parameters : seq (seq double)) :
  (0 < sigma)%Re -> spd C3 -> spd C6 ->
  [/\ forall prior,
        isotropic_noise_scales_covariance
          AbsolutePosePriorCostFunctor.Create prior C6 sigma parameters,
      forall prior,
        isotropic_noise_scales_covariance
          AbsolutePosePositionPriorCostFunctor.Create prior C3 sigma parameters,
      forall prior,
        isotropic_noise_scales_covariance
          RelativePosePriorCostFunctor.Create prior C6 sigma parameters
    & forall prior,
        isotropic_noise_scales_covariance
          Point3DAlignmentCostFunctor.Create prior C3 sigma parameters].
Proof.
move=> sigma_gt0 spdC3 spdC6; split=> prior.
- whitened_handle (fun C T (ST : Scalar T) p =>
    AbsolutePosePriorCostFunctor.call
      (AbsolutePosePriorCostFunctor.make prior C)
      (nth [::] p 0) (nth [::] p 1)).
  eexists => C T ST p.
  rewrite /AbsolutePosePriorCostFunctor.call /AbsolutePosePriorCostFunctor.make.
  cbv [AbsolutePosePriorCostFunctor.world_from_cam_prior_
       AbsolutePosePriorCostFunctor.cam_sqrt_info_from_world_prior_].
  reflexivity.
- whitened_handle (fun C T (ST : Scalar T) p =>
    AbsolutePosePositionPriorCostFunctor.call
      (AbsolutePosePositionPriorCostFunctor.make prior C)
      (nth [::] p 0) (nth [::] p 1)).
  eexists => C T ST p.
  rewrite /AbsolutePosePositionPriorCostFunctor.call
          /AbsolutePosePositionPriorCostFunctor.make.
  cbv [AbsolutePosePositionPriorCostFunctor.position_in_world_prior_
       AbsolutePosePositionPriorCostFunctor.position_sqrt_info_in_world_prior_].
  reflexivity.
- whitened_handle (fun C T (ST : Scalar T) p =>
    RelativePosePriorCostFunctor.call
      (RelativePosePriorCostFunctor.make prior C)
      (nth [::] p 0) (nth [::] p 1) (nth [::] p 2) (nth [::] p 3)).
  eexists => C T ST p.
  rewrite /RelativePosePriorCostFunctor.call /RelativePosePriorCostFunctor.make.
  cbv [RelativePosePriorCostFunctor.j_from_i_prior_
       RelativePosePriorCostFunctor.i_sqrt_info_from_j_prior_].
  reflexivity.
- whitened_handle (fun C T (ST : Scalar T) p =>
    Point3DAlignmentCostFunctor.call
      (Point3DAlignmentCostFunctor.make prior C)
      (nth [::] p 0) (nth [::] p 1) (nth [::] p 2) (nth [::] p 3)).
  eexists => C T ST p.
  rewrite /Point3DAlignmentCostFunctor.call /Point3DAlignmentCostFunctor.make.
  cbv [Point3DAlignmentCostFunctor.point_in_b_prior_
       Point3DAlignmentCostFunctor.point_sqrt_info_in_b_prior_].
  reflexivity.
Qed.

(** The standard deviation 2 and the covariances [4 I], at the parameter
    blocks (0, 0, 0, 1), (1, 2, 3), (3/5, 0, 0, 4/5) and (2, 0, 1). *)
Lemma IsotropicNoiseCostFunctorWrapper_scales_covariance_witness :
  let C3 : 'M[double]_3 := (4%Re)%:M in
  let C6 : 'M[double]_6 := (4%Re)%:M in
  let parameters :=
    [:: [:: 0%Re; 0%Re; 0%Re; 1%Re]; [:: 1%Re; 2%Re; 3%Re];
        [:: (3 / 5)%Re; 0%Re; 0%Re; (4 / 5)%Re]; [:: 2%Re; 0%Re; 1%Re]] in
  [/\ forall prior,
        isotropic_noise_scales_covariance
          AbsolutePosePriorCostFunctor.Create prior C6 2%Re parameters,
      forall prior,
        isotropic_noise_scales_covariance
          AbsolutePosePositionPriorCostFunctor.Create prior C3 2%Re parameters,
      forall prior,
        isotropic_noise_scales_covariance
          RelativePosePriorCostFunctor.Create prior C6 2%Re parameters
    & forall prior,
        isotropic_noise_scales_covariance
          Point3DAlignmentCostFunctor.Create prior C3 2%Re parameters].
Proof.
apply: IsotropicNoiseCostFunctorWrapper_scales_covariance; first lra.
- by apply: spd_scalar_mx; lra.
- by apply: spd_scalar_mx; lra.
Defined.

End WhitenedHandles.

(** ** Derivatives *)

Section Derivatives.
Local Open Scope ring_scope.
Import GRing.Theory.

(** The derivatives of whitened jets are the whitened derivatives. *)
Lemma applyOnTheLeft_jet n (M : 'M[R]_n) (x : seq Jet) (i : 'I_n) k :
  v (nth (cast 0%Re) (applyOnTheLeft M x) i) k
  = \sum_(j < n) M i j * v (at_ x j) k.
Proof.
have lt_i : i < size (enum 'I_n) by rewrite size_enum_ord.
rewrite /applyOnTheLeft (nth_map i); first exact: lt_i.
rewrite nth_ord_enum.
pose K (x : Jet) (y : R) := v x k = y.
apply: (big_rec2 K) => [|j y z _]; rewrite /K //= => ->.
by rewrite RaddE RmulE; ring.
Qed.

(** X21. The derivatives that automatic differentiation gives for the
    point alignment: at every point, rotation, translation and scale, the
    Jacobian of the residual with respect to the translation is the
    square-root information matrix, and its Jacobian with respect to the
    scale is the square-root information matrix applied to the rotated
    point [q * point_in_a]. *)
Theorem Point3DAlignmentCostFunctor_jacobians
    (point_in_b_prior : Vector3 double) (point_cov_in_b_prior : 'M[double]_3)
    (point_in_a b_from_a_rotation b_from_a_translation
       b_from_a_scale : seq double) :
  let out :=
    Evaluate (Point3DAlignmentCostFunctor.Create point_in_b_prior
                                                 point_cov_in_b_prior)
      [:: point_in_a; b_from_a_rotation; b_from_a_translation;
          b_from_a_scale] in
  let rotated :=
    transformVector (EigenQuaternionMap b_from_a_rotation)
                    (EigenVector3Map point_in_a) in
  (forall r c : 'I_3,
     nth 0%Re (nth [::] (jacobians out) 2) (r * 3 + c)
     = SqrtInformation point_cov_in_b_prior r c) /\
  (forall r : 'I_3,
     nth 0%Re (nth [::] (jacobians out) 3) r
     = (SqrtInformation point_cov_in_b_prior *m column 3 (data rotated)) r 0).
Proof.
move=> out rotated; rewrite /out /Point3DAlignmentCostFunctor.Create.
rewrite /AutoDiffCostFunction; cbv [Evaluate jacobians].
rewrite /Point3DAlignmentCostFunctor.call /Point3DAlignmentCostFunctor.make.
cbv [Point3DAlignmentCostFunctor.point_in_b_prior_
     Point3DAlignmentCostFunctor.point_sqrt_info_in_b_prior_ snd].
set M := SqrtInformation _; set raw := data _.
rewrite [jacobians_of _ _ _ _]/=; split=> [r c|r].
  have lt_idx : r * 3 + c < 3 * 3.
    by case: r c => [[|[|[|r]]] lt_r] // [[|[|[|c]]] lt_c].
  rewrite [nth [::] _ 2]/= nth_mkseq // divnMDl // modnMDl.
  rewrite divn_small ?modn_small ?addn0 ?ltn_ord // applyOnTheLeft_jet.
  rewrite !big_ord_recl big_ord0 addr0 /raw.
  case: c {lt_idx} => [[|[|[|c]]] lt_c] //; rewrite /at_ /=.
  - have -> : Ordinal lt_c = ord0 by apply: val_inj.
    by to_R; ring.
  - have -> : Ordinal lt_c = lift ord0 ord0 by apply: val_inj.
    by to_R; ring.
  - have -> : Ordinal lt_c = lift ord0 (lift ord0 ord0) by apply: val_inj.
    by to_R; ring.
have lt_r : r < 3 * 1 by rewrite muln1.
rewrite [nth [::] _ 3]/= nth_mkseq // divn1 modn1 addn0 applyOnTheLeft_jet.
rewrite mxE; apply: eq_bigr => j _; congr (_ * _); rewrite mxE /raw /rotated.
case: j => [[|[|[|j]]] lt_j] //; rewrite /at_ /EigenQuaternionMap
  /EigenVector3Map /at_ /=; eigen_unfold; ring.
Qed.

(** X22. The conditioner of the isotropic-noise wrapper is linear and its
    Jacobian is exact: [LinearCostFunction(s)] evaluates at the parameter
    [p] to the residual [p s], and the Jacobian entry it reports is the
    derivative of that residual with respect to [p]. *)
Theorem LinearCostFunction_derivative (s p : double) :
  let out x :=
    Evaluate (IsotropicNoiseCostFunctorWrapper.LinearCostFunction s)
             [:: [:: x]] in
  [/\ success (out p),
      residuals (out p) = [:: (p * s)%Re]
    & derivable_pt_lim (fun x => nth 0%Re (residuals (out x)) 0) p
        (nth 0%Re (nth [::] (jacobians (out p)) 0) 0)].
Proof.
move=> out; split=> //=.
have := derivable_pt_lim_scal_right _ p _ s (derivable_pt_lim_id p).
by rewrite Rmult_1_l.
Qed.

End Derivatives.

(** ** The dimensions of the handles *)

Section Dimensions.

Lemma jacobians_of_shape N (dims : seq nat) (out : seq Jet) offset :
  size (jacobians_of N offset dims out) = size dims /\
  forall i, i < size dims ->
    size (nth [::] (jacobians_of N offset dims out) i) = N * nth 0 dims i.
Proof.
elim: dims offset => [|d dims IHdims] offset //=.
have [-> shape] := IHdims (offset + d); split=> // -[|i] lt_i /=.
  by rewrite size_mkseq.
exact: shape.
Qed.

Lemma AutoDiffCostFunction_well_shaped (functor : CostFunctorCall) N
    (dims : seq nat) (parameters : seq (seq double)) :
  size (functor double double_Scalar parameters).2 = N ->
  well_shaped (AutoDiffCostFunction functor N dims)
    (Evaluate (AutoDiffCostFunction functor N dims) parameters).
Proof.
move=> size_res; rewrite /well_shaped /=.
by have [-> shape] := jacobians_of_shape N dims
     (functor Jet Jet_Scalar (jets_of 0 dims parameters)).2 0.
Qed.

(** X23. Every handle made by [AutoDiffCostFunctor::Create] keeps the
    dimensions it declares: for each of the ten residual functors and at
    all parameters, the evaluation writes as many residuals as the
    template argument [kNumResiduals] says (2, 1, 6 or 3) and one Jacobian
    per declared parameter block, with one entry per residual and
    parameter of the block. *)
Theorem AutoDiffCostFunctor_Create_well_shaped (CM : CameraModel)
    (parameters : seq (seq double)) :
  let shaped h := well_shaped h (Evaluate h parameters) in
  [/\ forall x, shaped (ReprojErrorCostFunctor.Create CM x),
      forall P x, shaped (ReprojErrorConstantPoseCostFunctor.Create CM P x),
      forall x X, shaped (ReprojErrorConstantPoint3DCostFunctor.Create CM x X),
      forall x, shaped (RigReprojErrorCostFunctor.Create CM x)
    & forall P x, shaped (RigReprojErrorConstantRigCostFunctor.Create CM P x)]
  /\
  [/\ forall x1 x2, shaped (SampsonErrorCostFunctor.Create x1 x2),
      forall P C, shaped (AbsolutePosePriorCostFunctor.Create P C),
      forall X C, shaped (AbsolutePosePositionPriorCostFunctor.Create X C),
      forall P C, shaped (RelativePosePriorCostFunctor.Create P C)
    & forall X C, shaped (Point3DAlignmentCostFunctor.Create X C)].
Proof.
move=> shaped; split; split=> *; apply: AutoDiffCostFunction_well_shaped => //;
  exact: size_applyOnTheLeft.
Qed.

(** X24. The dispatcher hands the camera parameters of the selected model
    to the residual functor: for a camera model of the closed list, whose
    labels are distinct, the handle that [CreateCameraCostFunction] returns
    for each of the five reprojection functors has two residuals and
    parameter blocks of the declared sizes, the last of which has the
    number of parameters of that camera model. *)
Theorem CreateCameraCostFunction_parameter_blocks
    (CAMERA_MODEL_CASES : seq CameraModel) (CM : CameraModel) :
  distinct_case_labels CAMERA_MODEL_CASES -> List.In CM CAMERA_MODEL_CASES ->
  let creates (A : Type) (create : CameraModel -> A -> CostFunction) (args : A)
              (kParameterDims : seq nat) :=
    exists2 h,
      CreateCameraCostFunction CAMERA_MODEL_CASES create (model_id CM) args
      = Returns h
      & num_residuals h = 2 /\ parameter_block_sizes h = kParameterDims in
  [/\ forall x,
        creates _ ReprojErrorCostFunctor.Create x [:: 4; 3; 3; num_params CM],
      forall P x,
        creates _ (fun CM a =>
                     ReprojErrorConstantPoseCostFunctor.Create CM a.1 a.2)
                (P, x) [:: 3; num_params CM],
      forall x X,
        creates _ (fun CM a =>
                     ReprojErrorConstantPoint3DCostFunctor.Create CM a.1 a.2)
                (x, X) [:: 4; 3; num_params CM],
      forall x,
        creates _ RigReprojErrorCostFunctor.Create x
                [:: 4; 3; 4; 3; 3; num_params CM]
    & forall P x,
        creates _ (fun CM a =>
                     RigReprojErrorConstantRigCostFunctor.Create CM a.1 a.2)
                (P, x) [:: 4; 3; 3; num_params CM]].
Proof.
move=> distinct CM_in creates; rewrite /creates /CreateCameraCostFunction.
by split=> *; rewrite camera_model_switch_case //; eexists.
Qed.

(** The two pinhole models as the closed list, the pinhole model with two
    focal lengths as the selected model, and the rig functor with fixed
    extrinsics. *)
Lemma CreateCameraCostFunction_parameter_blocks_witness :
  let cases := [:: SimplePinholeCameraModel; PinholeCameraModel] in
  let P :=
    mkRigid3d (mkQuaternion 0%Re 0%Re 0%Re 1%Re) (mkVector3 0%Re 0%Re 1%Re) in
  let x := mkVector2 0%Re 1%Re in
  exists2 h,
    CreateCameraCostFunction cases
      (fun CM a => RigReprojErrorConstantRigCostFunctor.Create CM a.1 a.2)
      1%Z (P, x) = Returns h
    & num_residuals h = 2 /\ parameter_block_sizes h = [:: 4; 3; 3; 4].
Proof.
move=> cases P x.
have [] // := @CreateCameraCostFunction_parameter_blocks cases
                PinholeCameraModel.
by right; left.
Defined.

End Dimensions.
